(** * RegExpUtils (src/regexp/regexp-utils.cc): a shallow embedding

    The helpers of [RegExpUtils] sit between the internal regular
    expression engine and the generic object protocol.  This development
    embeds the seven functions of the file and proves the properties its
    specification states about them.

    Layout of the file:
    - [ObjectModel]: tagged values, maps (type descriptors), the heap and
      the isolate, as far as regexp-utils.cc looks at them;
    - [Effects]: the state-and-exception monad the code runs in, and the
      log of calls that leave the module;
    - [RegExpUtils]: the functions of regexp-utils.cc, over an arbitrary
      [Runtime] (the collaborators that live outside the file);
    - [Reference]: one concrete runtime, used to run the functions on
      concrete heaps;
    - the theorems. *)

From Stdlib Require Import ZArith List Lia Bool String.
From Stdlib Require Import Floats.SpecFloat.
From stdpp Require Import base option gmap strings.

Local Open Scope Z_scope.

(** ** Machine integers *)

Module Int.

Definition kMaxInt : Z := 2 ^ 31 - 1.
Definition kMinInt : Z := - 2 ^ 31.
Definition kMaxUInt64 : Z := 2 ^ 64 - 1.

(** 2^53 - 1, the largest integer a double holds exactly. *)
Definition kMaxSafeInteger : Z := 9007199254740991.

(** Conversion to [int] (two's complement, 32 bits). *)
Definition to_int (x : Z) : Z := (x + 2 ^ 31) mod 2 ^ 32 - 2 ^ 31.

(** Conversion to [int64_t]. *)
Definition to_int64 (x : Z) : Z := (x + 2 ^ 63) mod 2 ^ 64 - 2 ^ 63.

(** Conversions to [uint32_t] and [uint64_t]. *)
Definition to_uint32 (x : Z) : Z := x mod 2 ^ 32.
Definition to_uint64 (x : Z) : Z := x mod 2 ^ 64.

Definition is_int (x : Z) : Prop := kMinInt <= x <= kMaxInt.

Lemma to_int_id x : is_int x -> to_int x = x.
Proof.
  unfold is_int, to_int, kMinInt, kMaxInt. intros H.
  rewrite Z.mod_small; lia.
Qed.

Lemma to_int64_id x : - 2 ^ 63 <= x < 2 ^ 63 -> to_int64 x = x.
Proof. unfold to_int64. intros H. rewrite Z.mod_small; lia. Qed.

Lemma to_uint32_id x : 0 <= x < 2 ^ 32 -> to_uint32 x = x.
Proof. unfold to_uint32. intros H. apply Z.mod_small; lia. Qed.

Lemma to_uint64_id x : 0 <= x < 2 ^ 64 -> to_uint64 x = x.
Proof. unfold to_uint64. intros H. apply Z.mod_small; lia. Qed.

End Int.

(** ** Strings

    A V8 string is a sequence of 16-bit code units; [length()] is an
    [int]. *)

Abbreviation JSString := (list Z).

Module Str.

(** Modelled from the spec: [String::length], the string service's
    "length query". *)
Definition length (s : JSString) : Z := Z.of_nat (List.length s).

(** Modelled from the spec: [String::Get], the string service's
    "code-unit indexing". regexp-utils.cc stays below [length]. *)
Definition Get (s : JSString) (index : Z) : Z := nth (Z.to_nat index) s 0.

Definition empty_string : JSString := [].

Definition is_high_surrogate (c : Z) : Prop := 0xD800 <= c <= 0xDBFF.
Definition is_low_surrogate (c : Z) : Prop := 0xDC00 <= c <= 0xDFFF.

(** Modelled from the spec: [Factory::NewSubString], defined outside
    regexp-utils.cc; the string service's "substring extraction by
    code-unit offsets": the units from [begin] (inclusive) to [end]
    (exclusive), as a new string. *)
Definition NewSubString (s : JSString) (begin_ end_ : Z) : JSString :=
  firstn (Z.to_nat (end_ - begin_)) (skipn (Z.to_nat begin_) s).

End Str.

(** ** The object model *)

Module ObjectModel.

(** Heap objects are compared by identity: an address. *)
Definition address := N.

Inductive OddballKind := kUndefined | kNull | kTrue | kFalse.

(** A tagged value ([Object*]). *)
Inductive Object :=
| Smi (value : Z)
| HeapNumber (value : spec_float)
| Oddball (kind : OddballKind)
| StringValue (s : JSString)
| Symbol (description : string)
| JSReceiver (ptr : address).

Definition undefined_value : Object := Oddball kUndefined.
Definition null_value : Object := Oddball kNull.

Definition IsSmi (o : Object) : bool :=
  match o with Smi _ => true | _ => false end.

(** [Smi::ToInt]; only meaningful behind an [IsSmi] test. *)
Definition Smi_ToInt (o : Object) : Z :=
  match o with Smi v => v | _ => 0 end.

Definition IsJSReceiver (o : Object) : bool :=
  match o with JSReceiver _ => true | _ => false end.

Definition IsUndefined (o : Object) : bool :=
  match o with Oddball kUndefined => true | _ => false end.

Definition IsNull (o : Object) : bool :=
  match o with Oddball kNull => true | _ => false end.

(** Property keys. *)
Inductive Name :=
| NameString (s : string)
| NameSymbol (s : string).

#[global] Instance Name_eq_dec : EqDecision Name.
Proof. solve_decision. Defined.

Definition lastIndex_string : Name := NameString "lastIndex".
Definition exec_string : Name := NameString "exec".
Definition match_symbol : Name := NameSymbol "Symbol.match".

Inductive InstanceType :=
| JS_REGEXP_TYPE
| JS_FUNCTION_TYPE
| JS_OBJECT_TYPE.

#[global] Instance InstanceType_eq_dec : EqDecision InstanceType.
Proof. solve_decision. Defined.

(** A map (type descriptor). Two maps are the same map when they sit at
    the same address. *)
Record Map := {
  instance_type : InstanceType;
  is_callable : bool;
  prototype : Object
}.

(** What a user function does when called; only a runtime looks at it. *)
Inductive Behaviour :=
| Returns (v : Object)
| Throws (v : Object).

(** A property of the backing store; only a runtime looks at it. *)
Inductive Property :=
| DataProperty (value : Object) (writable : bool)
| AccessorProperty (getter setter : Object).

(** The fields of a receiver. [last_index] is the in-object field at
    [JSRegExp::kLastIndexOffset]; regexp-utils.cc reads and writes it
    only behind a test of the map. *)
Record JSObjectFields := {
  map : address;
  last_index : Object;
  properties : list (Name * Property);
  code : option Behaviour
}.

Record JSFunction := { initial_map : address }.

(** The part of the isolate (heap, native context, flags) the file
    depends on. *)
Record Isolate := {
  maps : gmap N Map;
  objects : gmap N JSObjectFields;
  regexp_function : JSFunction;
  regexp_prototype_map : address;
  regexp_exec_function : Object;
  force_slow_path : bool
}.

#[global] Instance Map_inhabited : Inhabited Map :=
  populate {| instance_type := JS_OBJECT_TYPE; is_callable := false;
              prototype := null_value |}.

#[global] Instance JSObjectFields_inhabited : Inhabited JSObjectFields :=
  populate {| map := 0%N; last_index := Smi 0; properties := [];
              code := None |}.

Section Accessors.
Variable isolate : Isolate.

(** [recv->map()] *)
Definition map_of (recv : address) : address :=
  map (objects isolate !!! recv).

(** The contents of the map at an address. *)
Definition map_at (m : address) : Map := maps isolate !!! m.

(** [JSRegExp::cast(recv)->last_index()] *)
Definition JSRegExp_last_index (recv : address) : Object :=
  last_index (objects isolate !!! recv).

(** [JSRegExp::cast(recv)->set_last_index(value, SKIP_WRITE_BARRIER)] *)
Definition JSRegExp_set_last_index (recv : address) (value : Object)
  : Isolate :=
  let o := objects isolate !!! recv in
  {| maps := maps isolate;
     objects := <[recv := {| map := map o; last_index := value;
                             properties := properties o;
                             code := code o |}]> (objects isolate);
     regexp_function := regexp_function isolate;
     regexp_prototype_map := regexp_prototype_map isolate;
     regexp_exec_function := regexp_exec_function isolate;
     force_slow_path := force_slow_path isolate |}.

Definition IsJSRegExp (o : Object) : bool :=
  match o with
  | JSReceiver recv =>
      bool_decide (instance_type (map_at (map_of recv)) = JS_REGEXP_TYPE)
  | _ => false
  end.

Definition IsCallable (o : Object) : bool :=
  match o with
  | JSReceiver recv => is_callable (map_at (map_of recv))
  | _ => false
  end.
End Accessors.

(** Build-time configuration. *)
Record Build := {
  V8_ENABLE_FORCE_SLOW_PATH : bool
}.

End ObjectModel.
Import ObjectModel.

(** ** Capture registers *)

(** Modelled from the spec: the type [RegExpMatchInfo], declared outside
    regexp-utils.cc: "an ordered sequence of integer pairs (start, end),
    indexed by capture-group number, plus a back-reference to the Subject
    it was computed against". The registers are kept flat, as
    regexp-utils.cc indexes them. *)
Record RegExpMatchInfo := {
  registers : list Z;
  LastSubject : JSString
}.

(** Modelled from the spec: [RegExpMatchInfo::NumberOfCaptureRegisters],
    "the table's register count". *)
Definition NumberOfCaptureRegisters (match_info : RegExpMatchInfo) : Z :=
  Z.of_nat (List.length (registers match_info)).

(** Modelled from the spec: [RegExpMatchInfo::Capture], the register at
    position [i]; there is an answer only inside the register count. *)
Definition Capture (match_info : RegExpMatchInfo) (i : Z) : option Z :=
  if (0 <=? i) && (i <? NumberOfCaptureRegisters match_info)
  then registers match_info !! Z.to_nat i
  else None.

(** Registers come in pairs. *)
Definition match_info_wf (match_info : RegExpMatchInfo) : Prop :=
  Z.even (NumberOfCaptureRegisters match_info) = true /\
  NumberOfCaptureRegisters match_info <= Int.kMaxInt.

(** ** Effects: exceptions, the isolate as state, and the call log *)

Module Effects.

Inductive MessageTemplate :=
| kInvalidRegExpExecResult
| kIncompatibleMethodReceiver.

(** A pending exception: a type error of this file, or whatever a
    collaborator threw. *)
Inductive Error :=
| NewTypeError (template : MessageTemplate) (args : list Object)
| UserError (value : Object).

(** [MaybeHandle<T>] / [Maybe<T>]: a value, or empty with an exception
    pending on the isolate. *)
Inductive Maybe (A : Type) :=
| Just (value : A)
| Thrown (pending_exception : Error).
Arguments Just {A} value.
Arguments Thrown {A} pending_exception.

Inductive LanguageMode := kSloppy | kStrict.

(** The calls that leave regexp-utils.cc, in the order they are made. *)
Inductive Event :=
| EvGetProperty (receiver : Object) (name : Name)
| EvSetProperty (receiver : Object) (name : Name) (value : Object)
                (mode : LanguageMode)
| EvCall (callable receiver : Object) (argv : list Object)
| EvToLength (input : Object).

Record World := {
  isolate : Isolate;
  calls : list Event
}.

Definition M (A : Type) : Type := World -> Maybe A * World.

Definition ret {A} (a : A) : M A := fun w => (Just a, w).

Definition throw {A} (e : Error) : M A := fun w => (Thrown e, w).

Definition bind {A B} (c : M A) (k : A -> M B) : M B :=
  fun w =>
    match c w with
    | (Just a, w') => k a w'
    | (Thrown e, w') => (Thrown e, w')
    end.

Definition get_isolate : M Isolate := fun w => (Just (isolate w), w).

Definition put_isolate (i : Isolate) : M unit :=
  fun w => (Just tt, {| isolate := i; calls := calls w |}).

(** A call that leaves the file: logged, then run on the isolate. *)
Definition external {A} (ev : Event)
  (impl : Isolate -> Maybe A * Isolate) : M A :=
  fun w =>
    let (r, i) := impl (isolate w) in
    (r, {| isolate := i; calls := calls w ++ [ev] |}).

Declare Scope v8_scope.
Delimit Scope v8_scope with v8.
Notation "'let*' x ':=' c 'in' k" := (bind c (fun x => k))
  (at level 10, x name, c at level 100, k at level 200) : v8_scope.

End Effects.
Import Effects.
Local Open Scope v8_scope.

(** ** The collaborators

    Everything regexp-utils.cc calls and does not define: the property
    protocol, calls of callables, coercions and the number factory. The
    four that can run user code take and return the isolate. *)

Class Runtime := {
  build : Build;
  Object_GetProperty_impl :
    Object -> Name -> Isolate -> Maybe Object * Isolate;
  Object_SetProperty_impl :
    Object -> Name -> Object -> LanguageMode -> Isolate ->
    Maybe Object * Isolate;
  Execution_Call_impl :
    Object -> Object -> list Object -> Isolate -> Maybe Object * Isolate;
  Object_ToLength_impl : Object -> Isolate -> Maybe Object * Isolate;
  Object_BooleanValue : Isolate -> Object -> bool;
  NewNumberFromInt64 : Z -> Object;
  PositiveNumberToUint64 : Object -> Z
}.

(** The code units of an ASCII literal ([NewStringFromAsciiChecked]). *)
Definition NewStringFromAsciiChecked (s : string) : JSString :=
  List.map (fun c => Z.of_nat (Ascii.nat_of_ascii c)) (list_ascii_of_string s).

(** ** regexp-utils.cc *)

Module RegExpUtils.

(** [if (ok != nullptr) *ok = b]: [None] is the null pointer. *)
Definition store_ok (ok : option bool) (b : bool) : option bool :=
  match ok with
  | Some _ => Some b
  | None => None
  end.

(** The result is the returned string and the cell behind [ok]; [None]
    when a register is read outside the table. *)
Definition GenericCaptureGetter (match_info : RegExpMatchInfo)
  (capture : Z) (ok : option bool) : option (JSString * option bool) :=
  let index := Int.to_int (capture * 2) in
  if NumberOfCaptureRegisters match_info <=? index
  then Some (Str.empty_string, store_ok ok false)
  else
    match_start ← Capture match_info index;
    match_end ← Capture match_info (Int.to_int (index + 1));
    if (match_start =? -1) || (match_end =? -1)
    then Some (Str.empty_string, store_ok ok false)
    else
      let last_subject := LastSubject match_info in
      Some (Str.NewSubString last_subject match_start match_end,
            store_ok ok true).

Definition HasInitialRegExpMap (isolate : Isolate) (recv : address) : bool :=
  (map_of isolate recv =? initial_map (regexp_function isolate))%N.

(** [index] is a [uint64_t]; the isolate argument of the source is not
    used. *)
Definition AdvanceStringIndex (string : JSString) (index : Z)
  (unicode : bool) : Z :=
  let string_length := Int.to_uint64 (Str.length string) in
  if unicode && (index <? string_length) then
    let first := Str.Get string (Int.to_uint32 index) in
    if (0xD800 <=? first) && (first <=? 0xDBFF)
       && (Int.to_uint64 (index + 1) <? string_length) then
      let second :=
        Str.Get string (Int.to_uint32 (Int.to_uint64 (index + 1))) in
      if (0xDC00 <=? second) && (second <=? 0xDFFF)
      then Int.to_uint64 (index + 2)
      else Int.to_uint64 (index + 1)
    else Int.to_uint64 (index + 1)
  else Int.to_uint64 (index + 1).

Section WithRuntime.
Context {rt : Runtime}.

Definition Object_GetProperty (receiver : Object) (name : Name)
  : M Object :=
  external (EvGetProperty receiver name)
           (Object_GetProperty_impl receiver name).

Definition Object_SetProperty (receiver : Object) (name : Name)
  (value : Object) (mode : LanguageMode) : M Object :=
  external (EvSetProperty receiver name value mode)
           (Object_SetProperty_impl receiver name value mode).

Definition Execution_Call (callable receiver : Object)
  (argv : list Object) : M Object :=
  external (EvCall callable receiver argv)
           (Execution_Call_impl callable receiver argv).

Definition Object_ToLength (input : Object) : M Object :=
  external (EvToLength input) (Object_ToLength_impl input).

Definition SetLastIndex (recv : address) (value : Z) : M Object :=
  let value_as_object := NewNumberFromInt64 (Int.to_int64 value) in
  let* isolate := get_isolate in
  if HasInitialRegExpMap isolate recv then
    let* _ := put_isolate
                (JSRegExp_set_last_index isolate recv value_as_object) in
    ret (JSReceiver recv)
  else
    Object_SetProperty (JSReceiver recv) lastIndex_string
                       value_as_object kStrict.

Definition GetLastIndex (recv : address) : M Object :=
  let* isolate := get_isolate in
  if HasInitialRegExpMap isolate recv then
    ret (JSRegExp_last_index isolate recv)
  else
    Object_GetProperty (JSReceiver recv) lastIndex_string.

Definition RegExpExec (regexp : address) (string : JSString)
  (exec : Object) : M Object :=
  let* exec :=
    (if IsUndefined exec
     then Object_GetProperty (JSReceiver regexp) exec_string
     else ret exec) in
  let* isolate := get_isolate in
  if IsCallable isolate exec then
    let argv := [StringValue string] in
    let* result := Execution_Call exec (JSReceiver regexp) argv in
    if negb (IsJSReceiver result) && negb (IsNull result) then
      throw (NewTypeError kInvalidRegExpExecResult [])
    else ret result
  else if negb (IsJSRegExp isolate (JSReceiver regexp)) then
    throw (NewTypeError kIncompatibleMethodReceiver
             [StringValue
                (NewStringFromAsciiChecked "RegExp.prototype.exec");
              JSReceiver regexp])
  else
    let regexp_exec := regexp_exec_function isolate in
    let argv := [StringValue string] in
    Execution_Call regexp_exec (JSReceiver regexp) argv.

Definition IsRegExp (object : Object) : M bool :=
  if negb (IsJSReceiver object) then ret false
  else
    let receiver := object in
    let* match_ := Object_GetProperty receiver match_symbol in
    let* isolate := get_isolate in
    if negb (IsUndefined match_)
    then ret (Object_BooleanValue isolate match_)
    else ret (IsJSRegExp isolate object).

Definition IsUnmodifiedRegExp (isolate : Isolate) (obj : Object) : bool :=
  if V8_ENABLE_FORCE_SLOW_PATH build && force_slow_path isolate
  then false
  else
    match obj with
    | JSReceiver recv =>
        (* Check the receiver's map. *)
        let regexp_function := regexp_function isolate in
        if negb (map_of isolate recv =? initial_map regexp_function)%N
        then false
        else
          (* Check the receiver's prototype's map. *)
          let proto := prototype (map_at isolate (map_of isolate recv)) in
          match proto with
          | JSReceiver proto_recv =>
              let initial_proto_initial_map :=
                regexp_prototype_map isolate in
              if negb (map_of isolate proto_recv
                       =? initial_proto_initial_map)%N
              then false
              else
                let last_index := JSRegExp_last_index isolate recv in
                IsSmi last_index && (0 <=? Smi_ToInt last_index)
          | _ => false
          end
    | _ => false
    end.

Definition SetAdvancedStringIndex (regexp : address) (string : JSString)
  (unicode : bool) : M Object :=
  let* last_index_obj :=
    Object_GetProperty (JSReceiver regexp) lastIndex_string in
  let* last_index_obj := Object_ToLength last_index_obj in
  let last_index :=
    Int.to_uint64 (PositiveNumberToUint64 last_index_obj) in
  let new_last_index := AdvanceStringIndex string last_index unicode in
  SetLastIndex regexp new_last_index.

End WithRuntime.

End RegExpUtils.
Import RegExpUtils.

(** ** A reference runtime

    A small concrete runtime: data and accessor properties with a
    prototype chain, user functions that return or throw a constant, and
    the number conversions of a 64-bit build. It is used to run the
    functions above on concrete heaps. *)

Module Reference.

Definition kSmiMinValue : Z := - 2 ^ 31.
Definition kSmiMaxValue : Z := 2 ^ 31 - 1.

Definition Smi_IsValid (v : Z) : bool :=
  (kSmiMinValue <=? v) && (v <=? kSmiMaxValue).

(** [static_cast<double>(v)] for an integer [v]. *)
Definition double_of_Z (v : Z) : spec_float :=
  binary_normalize 53 1024 v 0 false.

Definition number_from_int64 (v : Z) : Object :=
  if Smi_IsValid v then Smi v else HeapNumber (double_of_Z v).

(** The integer part of a double that is at least 1. *)
Definition truncate (f : spec_float) : Z :=
  match f with
  | S754_finite false m e =>
      if 0 <=? e then Z.pos m * 2 ^ e else Z.pos m / 2 ^ (- e)
  | _ => 0
  end.

Definition positive_number_to_uint64 (number : Object) : Z :=
  match number with
  | Smi value => if value <=? 0 then 0 else value
  | HeapNumber value =>
      match value with
      | S754_infinity false => Int.kMaxUInt64
      | S754_finite false _ _ =>
          if truncate value <? 1 then 0
          else Z.min (truncate value) Int.kMaxUInt64
      | _ => 0
      end
  | _ => 0
  end.

Definition boolean_value (_ : Isolate) (o : Object) : bool :=
  match o with
  | Smi v => negb (v =? 0)
  | HeapNumber (S754_zero _) | HeapNumber S754_nan => false
  | HeapNumber _ => true
  | Oddball kTrue => true
  | Oddball _ => false
  | StringValue s => negb (Str.length s =? 0)
  | Symbol _ => true
  | JSReceiver _ => true
  end.

Definition unsupported {A} (what : string) (i : Isolate)
  : Maybe A * Isolate :=
  (Thrown (UserError (StringValue (NewStringFromAsciiChecked what))), i).

Definition to_length (input : Object) (i : Isolate)
  : Maybe Object * Isolate :=
  match input with
  | Smi v => (Just (Smi (Z.max v 0)), i)
  | HeapNumber f =>
      (Just (number_from_int64
               (Z.min (positive_number_to_uint64 (HeapNumber f))
                      Int.kMaxSafeInteger)), i)
  | Oddball kTrue => (Just (Smi 1), i)
  | Oddball _ => (Just (Smi 0), i)
  | _ => unsupported "ToLength" i
  end.

Definition call (callable receiver : Object) (argv : list Object)
  (i : Isolate) : Maybe Object * Isolate :=
  match callable with
  | JSReceiver f =>
      match code (objects i !!! f) with
      | Some (Returns v) => (Just v, i)
      | Some (Throws v) => (Thrown (UserError v), i)
      | None => unsupported "not a function" i
      end
  | _ => unsupported "not a function" i
  end.

Fixpoint lookup_name (n : Name) (ps : list (Name * Property))
  : option Property :=
  match ps with
  | [] => None
  | (k, p) :: ps' => if decide (k = n) then Some p else lookup_name n ps'
  end.

Definition is_regexp_instance (i : Isolate) (recv : address) : bool :=
  bool_decide (instance_type (map_at i (map_of i recv)) = JS_REGEXP_TYPE).

(** Property lookup along the prototype chain, [depth] links deep. *)
Fixpoint get_property_from (depth : nat) (holder : Object)
  (receiver : Object) (n : Name) (i : Isolate) : Maybe Object * Isolate :=
  match holder with
  | JSReceiver h =>
      if is_regexp_instance i h && bool_decide (n = lastIndex_string)
      then (Just (JSRegExp_last_index i h), i)
      else
        match lookup_name n (properties (objects i !!! h)) with
        | Some (DataProperty v _) => (Just v, i)
        | Some (AccessorProperty getter _) => call getter receiver [] i
        | None =>
            match depth with
            | O => (Just undefined_value, i)
            | S d =>
                get_property_from d (prototype (map_at i (map_of i h)))
                                  receiver n i
            end
        end
  | _ => (Just undefined_value, i)
  end.

Definition get_property (receiver : Object) (n : Name) (i : Isolate)
  : Maybe Object * Isolate :=
  get_property_from 8 receiver receiver n i.

Definition set_property (receiver : Object) (n : Name) (value : Object)
  (mode : LanguageMode) (i : Isolate) : Maybe Object * Isolate :=
  match receiver with
  | JSReceiver h =>
      if is_regexp_instance i h && bool_decide (n = lastIndex_string)
      then (Just value, JSRegExp_set_last_index i h value)
      else
        match lookup_name n (properties (objects i !!! h)) with
        | Some (AccessorProperty _ setter) =>
            match call setter receiver [value] i with
            | (Just _, i') => (Just value, i')
            | (Thrown e, i') => (Thrown e, i')
            end
        | Some (DataProperty _ false) =>
            match mode with
            | kStrict => unsupported "read only property" i
            | kSloppy => (Just value, i)
            end
        | _ =>
            let o := objects i !!! h in
            (Just value,
             {| maps := maps i;
                objects :=
                  <[h := {| map := map o; last_index := last_index o;
                            properties :=
                              (n, DataProperty value true) :: properties o;
                            code := code o |}]> (objects i);
                regexp_function := regexp_function i;
                regexp_prototype_map := regexp_prototype_map i;
                regexp_exec_function := regexp_exec_function i;
                force_slow_path := force_slow_path i |})
        end
  | _ => (Just value, i)
  end.

#[local] Instance runtime : Runtime := {|
  build := {| V8_ENABLE_FORCE_SLOW_PATH := false |};
  Object_GetProperty_impl := get_property;
  Object_SetProperty_impl := set_property;
  Execution_Call_impl := call;
  Object_ToLength_impl := to_length;
  Object_BooleanValue := boolean_value;
  NewNumberFromInt64 := number_from_int64;
  PositiveNumberToUint64 := positive_number_to_uint64
|}.

(** *** A concrete heap *)

Definition regexp_map : address := 10%N.
Definition regexp_prototype_map_ : address := 11%N.
Definition function_map : address := 12%N.
Definition object_map : address := 13%N.

Definition a_regexp : address := 1%N.          (* /./ with lastIndex 4 *)
Definition the_prototype : address := 2%N.     (* RegExp.prototype *)
Definition builtin_exec : address := 3%N.      (* RegExp.prototype.exec *)
Definition returns_three : address := 4%N.     (* function () { return 3 } *)
Definition a_plain_object : address := 5%N.    (* { exec: 42 } *)
Definition a_negative_regexp : address := 6%N. (* lastIndex slot is -1 *)
Definition returns_null : address := 7%N.      (* function () { return null } *)
Definition a_custom_matcher : address := 8%N.  (* { exec: returns_three } *)
Definition throwing_getter : address := 9%N.   (* function () { throw 7 } *)
Definition a_trapped_object : address := 14%N. (* exec, lastIndex, @@match getters throw *)
Definition a_marked_object : address := 15%N.  (* { [Symbol.match]: true } *)
Definition a_patched_regexp : address := 16%N. (* a regexp with own exec: 42 *)
Definition patched_regexp_map : address := 17%N.

Definition plain (m : address) (li : Object)
  (ps : list (Name * Property)) (c : option Behaviour) : JSObjectFields :=
  {| map := m; last_index := li; properties := ps; code := c |}.

Definition the_maps : gmap N Map :=
  list_to_map
    [ (regexp_map,
       {| instance_type := JS_REGEXP_TYPE; is_callable := false;
          prototype := JSReceiver the_prototype |});
      (regexp_prototype_map_,
       {| instance_type := JS_OBJECT_TYPE; is_callable := false;
          prototype := null_value |});
      (function_map,
       {| instance_type := JS_FUNCTION_TYPE; is_callable := true;
          prototype := null_value |});
      (object_map,
       {| instance_type := JS_OBJECT_TYPE; is_callable := false;
          prototype := null_value |});
      (patched_regexp_map,
       {| instance_type := JS_REGEXP_TYPE; is_callable := false;
          prototype := JSReceiver the_prototype |}) ].

Definition the_objects : gmap N JSObjectFields :=
  list_to_map
    [ (a_regexp, plain regexp_map (Smi 4) [] None);
      (the_prototype,
       plain regexp_prototype_map_ (Smi 0)
             [(exec_string, DataProperty (JSReceiver builtin_exec) true)]
             None);
      (builtin_exec, plain function_map (Smi 0) [] (Some (Returns null_value)));
      (returns_three, plain function_map (Smi 0) [] (Some (Returns (Smi 3))));
      (a_plain_object,
       plain object_map (Smi 0)
             [(exec_string, DataProperty (Smi 42) true)] None);
      (a_negative_regexp, plain regexp_map (Smi (-1)) [] None);
      (returns_null, plain function_map (Smi 0) [] (Some (Returns null_value)));
      (a_custom_matcher,
       plain object_map (Smi 0)
             [(exec_string, DataProperty (JSReceiver returns_three) true);
              (lastIndex_string, DataProperty (Smi 4) true)] None);
      (throwing_getter, plain function_map (Smi 0) [] (Some (Throws (Smi 7))));
      (a_trapped_object,
       plain object_map (Smi 0)
             [(exec_string,
               AccessorProperty (JSReceiver throwing_getter) undefined_value);
              (lastIndex_string,
               AccessorProperty (JSReceiver throwing_getter)
                                (JSReceiver throwing_getter));
              (match_symbol,
               AccessorProperty (JSReceiver throwing_getter) undefined_value)]
             None);
      (a_marked_object,
       plain object_map (Smi 0)
             [(match_symbol, DataProperty (Oddball kTrue) true)] None);
      (a_patched_regexp,
       plain patched_regexp_map (Smi 0)
             [(exec_string, DataProperty (Smi 42) true)] None) ].

Definition the_isolate : Isolate :=
  {| maps := the_maps;
     objects := the_objects;
     regexp_function := {| initial_map := regexp_map |};
     regexp_prototype_map := regexp_prototype_map_;
     regexp_exec_function := JSReceiver builtin_exec;
     force_slow_path := false |}.

Definition the_world : World := {| isolate := the_isolate; calls := [] |}.

(** "abcdefghij" *)
Definition ten_units : JSString := NewStringFromAsciiChecked "abcdefghij".

End Reference.

(** * Properties *)

(** ** Strings and substrings *)

Lemma Get_in_range (s : JSString) (i : Z) :
  0 <= i < Str.length s -> s !! Z.to_nat i = Some (Str.Get s i).
Proof.
  unfold Str.length, Str.Get. intros Hi.
  rewrite nth_lookup.
  destruct (lookup_lt_is_Some_2 s (Z.to_nat i)) as [c Hc]; [lia |].
  now rewrite Hc.
Qed.

Lemma lookup_below_length (s : JSString) (i : Z) (c : Z) :
  0 <= i -> s !! Z.to_nat i = Some c -> i < Str.length s /\ Str.Get s i = c.
Proof.
  intros Hi Hc. split.
  - apply lookup_lt_Some in Hc. unfold Str.length. lia.
  - unfold Str.Get. now rewrite nth_lookup, Hc.
Qed.

Lemma NewSubString_length (s : JSString) (b e : Z) :
  0 <= b <= e -> e <= Str.length s ->
  Str.length (Str.NewSubString s b e) = e - b.
Proof.
  unfold Str.length, Str.NewSubString. intros Hb He.
  rewrite length_take, length_drop. lia.
Qed.

Lemma NewSubString_unit (s : JSString) (b e k : Z) :
  0 <= b <= e -> 0 <= k < e - b ->
  Str.NewSubString s b e !! Z.to_nat k = s !! Z.to_nat (b + k).
Proof.
  unfold Str.NewSubString. intros Hb Hk.
  rewrite lookup_take_lt by lia.
  rewrite lookup_drop. f_equal. lia.
Qed.

(** ** The capture getter *)

Lemma Capture_in_range (t : RegExpMatchInfo) (i : Z) :
  0 <= i < NumberOfCaptureRegisters t ->
  exists r, registers t !! Z.to_nat i = Some r /\ Capture t i = Some r.
Proof.
  intros Hi. unfold Capture.
  destruct (lookup_lt_is_Some_2 (registers t) (Z.to_nat i)) as [r Hr].
  { unfold NumberOfCaptureRegisters in Hi. lia. }
  exists r. split; [exact Hr |].
  replace (0 <=? i) with true by (symmetry; apply Z.leb_le; lia).
  replace (i <? NumberOfCaptureRegisters t) with true
    by (symmetry; apply Z.ltb_lt; lia).
  exact Hr.
Qed.

Lemma even_count_pair (t : RegExpMatchInfo) (g : Z) :
  match_info_wf t -> g * 2 + 1 <= NumberOfCaptureRegisters t ->
  g * 2 + 1 < NumberOfCaptureRegisters t.
Proof.
  intros [Heven _] Hle.
  destruct (Z.eq_dec (g * 2 + 1) (NumberOfCaptureRegisters t)) as [E | E];
    [| lia].
  rewrite <- E in Heven.
  replace (g * 2 + 1) with (1 + 2 * g) in Heven by lia.
  rewrite Z.even_add_mul_2 in Heven. discriminate.
Qed.

(** C5. For a table whose registers come in pairs and a group index [g]
    (non-negative, with [g * 2 + 1] inside [int]): when [g * 2 + 1]
    exceeds the register count the getter returns the empty string and
    stores [false] behind [ok]; otherwise it reads the pair
    [(start, end)] of group [g], and returns the empty string with
    [false] when either is [-1], and else the substring of the last
    subject from [start] to [end] with [true]. It always returns. *)
Theorem GenericCaptureGetter_spec (t : RegExpMatchInfo) (g : Z)
  (ok : option bool) :
  match_info_wf t -> 0 <= g -> g * 2 + 1 <= Int.kMaxInt ->
  (NumberOfCaptureRegisters t < g * 2 + 1 ->
   GenericCaptureGetter t g ok
   = Some (Str.empty_string, store_ok ok false)) /\
  (g * 2 + 1 <= NumberOfCaptureRegisters t ->
   exists start end_,
     registers t !! Z.to_nat (g * 2) = Some start /\
     registers t !! Z.to_nat (g * 2 + 1) = Some end_ /\
     (start = -1 \/ end_ = -1 ->
      GenericCaptureGetter t g ok
      = Some (Str.empty_string, store_ok ok false)) /\
     (start <> -1 /\ end_ <> -1 ->
      GenericCaptureGetter t g ok
      = Some (Str.NewSubString (LastSubject t) start end_,
              store_ok ok true))) /\
  is_Some (GenericCaptureGetter t g ok).
Proof.
  intros Hwf Hg Hmax.
  assert (Hidx : Int.to_int (g * 2) = g * 2).
  { apply Int.to_int_id. unfold Int.is_int, Int.kMinInt, Int.kMaxInt in *. lia. }
  assert (Hidx1 : Int.to_int (g * 2 + 1) = g * 2 + 1).
  { apply Int.to_int_id. unfold Int.is_int, Int.kMinInt, Int.kMaxInt in *. lia. }
  assert (Hout : NumberOfCaptureRegisters t < g * 2 + 1 ->
                 GenericCaptureGetter t g ok
                 = Some (Str.empty_string, store_ok ok false)).
  { intros Hlt. unfold GenericCaptureGetter. rewrite Hidx.
    destruct (Z.leb_spec (NumberOfCaptureRegisters t) (g * 2)); [reflexivity | lia]. }
  assert (Hin : g * 2 + 1 <= NumberOfCaptureRegisters t ->
     exists start end_,
       registers t !! Z.to_nat (g * 2) = Some start /\
       registers t !! Z.to_nat (g * 2 + 1) = Some end_ /\
       GenericCaptureGetter t g ok
       = Some (if (start =? -1) || (end_ =? -1)
               then (Str.empty_string, store_ok ok false)
               else (Str.NewSubString (LastSubject t) start end_,
                     store_ok ok true))).
  { intros Hle. pose proof (even_count_pair t g Hwf Hle) as Hlt.
    destruct (Capture_in_range t (g * 2)) as (start & Hs & Cs); [lia |].
    destruct (Capture_in_range t (g * 2 + 1)) as (end_ & He & Ce); [lia |].
    exists start, end_. repeat split; try assumption.
    unfold GenericCaptureGetter. rewrite Hidx, Hidx1.
    destruct (Z.leb_spec (NumberOfCaptureRegisters t) (g * 2)); [lia |].
    rewrite Cs. simpl. rewrite Ce. simpl.
    now destruct ((start =? -1) || (end_ =? -1)). }
  split; [exact Hout |]. split.
  - intros Hle. destruct (Hin Hle) as (start & end_ & Hs & He & Hr).
    exists start, end_. repeat split; try assumption.
    + intros Hm. rewrite Hr.
      replace ((start =? -1) || (end_ =? -1)) with true; [reflexivity |].
      symmetry. apply orb_true_iff. rewrite !Z.eqb_eq. exact Hm.
    + intros [Hs1 He1]. rewrite Hr.
      replace ((start =? -1) || (end_ =? -1)) with false; [reflexivity |].
      symmetry. apply orb_false_iff. rewrite !Z.eqb_neq. now split.
  - destruct (Z.lt_ge_cases (NumberOfCaptureRegisters t) (g * 2 + 1)) as [H | H].
    + rewrite (Hout H). now eexists.
    + destruct (Hin H) as (? & ? & _ & _ & Hr). rewrite Hr. now eexists.
Qed.

(** The two tables of the specification's examples: group 0 of
    [(-1, -1)] is unmatched, and group 0 of [(2, 5)] over "abcdefgh" is
    "cde". *)
Lemma GenericCaptureGetter_spec_witness :
  GenericCaptureGetter
    {| registers := [-1; -1];
       LastSubject := NewStringFromAsciiChecked "abcdefgh" |} 0 (Some true)
  = Some (Str.empty_string, Some false) /\
  GenericCaptureGetter
    {| registers := [2; 5];
       LastSubject := NewStringFromAsciiChecked "abcdefgh" |} 0 (Some false)
  = Some (NewStringFromAsciiChecked "cde", Some true).
Proof.
  split.
  - set (t := {| registers := [-1; -1];
                  LastSubject := NewStringFromAsciiChecked "abcdefgh" |}).
    destruct (GenericCaptureGetter_spec t 0 (Some true))
      as (_ & Hin & _).
    + split; [reflexivity | unfold Int.kMaxInt; vm_compute; discriminate].
    + lia.
    + vm_compute. discriminate.
    + destruct Hin as (start & end_ & Hs & He & Hun & _).
      * vm_compute. discriminate.
      * apply Hun. left. simpl in Hs. congruence.
  - set (t := {| registers := [2; 5];
                  LastSubject := NewStringFromAsciiChecked "abcdefgh" |}).
    destruct (GenericCaptureGetter_spec t 0 (Some false))
      as (_ & Hin & _).
    + split; [reflexivity | vm_compute; discriminate].
    + lia.
    + vm_compute. discriminate.
    + destruct Hin as (start & end_ & Hs & He & _ & Hm).
      * vm_compute. discriminate.
      * simpl in Hs, He.
        assert (start = 2) by congruence. assert (end_ = 5) by congruence.
        subst. rewrite Hm by (split; lia). reflexivity.
Defined.

(** ** The index advancer *)

(** The code units at [i] and [i + 1] exist and form a surrogate pair. *)
Definition surrogate_pair_at (s : JSString) (i : Z) : Prop :=
  exists hi lo,
    s !! Z.to_nat i = Some hi /\ s !! Z.to_nat (i + 1) = Some lo /\
    Str.is_high_surrogate hi /\ Str.is_low_surrogate lo.

Section Advance.
Variables (s : JSString) (i : Z).
Hypothesis index_safe : 0 <= i <= Int.kMaxSafeInteger.
Hypothesis length_int : Str.length s <= Int.kMaxInt.

Lemma length_uint64 : Int.to_uint64 (Str.length s) = Str.length s.
Proof using length_int.
  apply Int.to_uint64_id. unfold Str.length, Int.kMaxInt in *. lia.
Qed.

Lemma succ_uint64 (k : Z) : 0 <= k <= 2 -> Int.to_uint64 (i + k) = i + k.
Proof using index_safe.
  intros Hk. apply Int.to_uint64_id.
  unfold Int.kMaxSafeInteger in index_safe. lia.
Qed.

Lemma AdvanceStringIndex_not_unicode : AdvanceStringIndex s i false = i + 1.
Proof using index_safe.
  unfold AdvanceStringIndex. simpl. apply succ_uint64. lia.
Qed.

Lemma AdvanceStringIndex_unicode :
  (surrogate_pair_at s i /\ AdvanceStringIndex s i true = i + 2) \/
  (~ surrogate_pair_at s i /\ AdvanceStringIndex s i true = i + 1).
Proof using index_safe length_int.
  unfold AdvanceStringIndex. rewrite length_uint64.
  rewrite !succ_uint64 by lia. simpl.
  destruct (Z.ltb_spec i (Str.length s)) as [Hlt | Hge].
  - rewrite (Int.to_uint32_id i) by (unfold Int.kMaxInt in *; lia).
    pose proof (Get_in_range s i ltac:(lia)) as Hfirst.
    destruct (Z.leb_spec 0xD800 (Str.Get s i)) as [Hlo | Hlo]; simpl.
    2:{ right. split; [| reflexivity].
        intros (hi & lo & Hhi & _ & [Hr _] & _). assert (hi = Str.Get s i) by congruence. lia. }
    destruct (Z.leb_spec (Str.Get s i) 0xDBFF) as [Hhi | Hhi]; simpl.
    2:{ right. split; [| reflexivity].
        intros (hi & lo & Hh & _ & [_ Hr] & _).
        assert (hi = Str.Get s i) by congruence. lia. }
    destruct (Z.ltb_spec (i + 1) (Str.length s)) as [Hlt1 | Hge1]; simpl.
    2:{ right. split; [| reflexivity].
        intros (hi & lo & _ & Hl & _).
        apply lookup_below_length in Hl; lia. }
    rewrite (Int.to_uint32_id (i + 1)) by (unfold Int.kMaxInt in *; lia).
    pose proof (Get_in_range s (i + 1) ltac:(lia)) as Hsecond.
    destruct (Z.leb_spec 0xDC00 (Str.Get s (i + 1))) as [Hlo2 | Hlo2]; simpl.
    2:{ right. split; [| reflexivity].
        intros (hi & lo & _ & Hl & _ & [Hr _]).
        assert (lo = Str.Get s (i + 1)) by congruence. lia. }
    destruct (Z.leb_spec (Str.Get s (i + 1)) 0xDFFF) as [Hhi2 | Hhi2]; simpl.
    2:{ right. split; [| reflexivity].
        intros (hi & lo & _ & Hl & _ & [_ Hr]).
        assert (lo = Str.Get s (i + 1)) by congruence. lia. }
    left. split; [| reflexivity].
    exists (Str.Get s i), (Str.Get s (i + 1)).
    unfold Str.is_high_surrogate, Str.is_low_surrogate. auto.
  - right. split; [| reflexivity].
    intros (hi & lo & Hh & _).
    apply lookup_below_length in Hh; lia.
Qed.

End Advance.

(** C4. For a subject [s] (its length an [int]) and an index [i] in the
    safe-integer range: without unicode the advancer returns [i + 1];
    with unicode it returns [i + 2] exactly when the code units at [i]
    and [i + 1] both exist and are a high and a low surrogate, and
    [i + 1] in every other case. The advancer is a function of its
    arguments alone: it neither reads nor writes the isolate. *)
Theorem AdvanceStringIndex_spec (s : JSString) (i : Z) :
  0 <= i <= Int.kMaxSafeInteger -> Str.length s <= Int.kMaxInt ->
  AdvanceStringIndex s i false = i + 1 /\
  (AdvanceStringIndex s i true = i + 2 <-> surrogate_pair_at s i) /\
  (~ surrogate_pair_at s i -> AdvanceStringIndex s i true = i + 1).
Proof.
  intros Hi Hlen.
  split; [now apply AdvanceStringIndex_not_unicode |].
  destruct (AdvanceStringIndex_unicode s i Hi Hlen) as [[Hp He] | [Hp He]].
  - split; [tauto | intros Hn; contradiction].
  - split; [| intros _; exact He].
    rewrite He. split; [lia | intros H; contradiction].
Qed.

Lemma AdvanceStringIndex_spec_witness :
  AdvanceStringIndex [0xD83D; 0xDE00; 97] 0 false = 1 /\
  AdvanceStringIndex [0xD83D; 0xDE00; 97] 0 true = 2 /\
  AdvanceStringIndex [0xD83D; 0xDE00; 97] 1 true = 2.
Proof.
  assert (Hlen : Str.length [0xD83D; 0xDE00; 97] <= Int.kMaxInt)
    by (vm_compute; discriminate).
  assert (H0 : 0 <= 0 <= Int.kMaxSafeInteger)
    by (split; vm_compute; discriminate).
  assert (H1 : 0 <= 1 <= Int.kMaxSafeInteger)
    by (split; vm_compute; discriminate).
  destruct (AdvanceStringIndex_spec [0xD83D; 0xDE00; 97] 0 H0 Hlen)
    as (Hplain & Hpair & _).
  destruct (AdvanceStringIndex_spec [0xD83D; 0xDE00; 97] 1 H1 Hlen)
    as (_ & _ & Hsingle).
  split; [exact Hplain |]. split.
  - apply Hpair. exists 0xD83D, 0xDE00. simpl.
    unfold Str.is_high_surrogate, Str.is_low_surrogate.
    repeat split; try reflexivity; lia.
  - apply Hsingle. intros (hi & lo & Hh & _ & [_ Hr] & _).
    simpl in Hh. injection Hh as <-. lia.
Defined.

(** ** Running the monad *)

Ltac run :=
  unfold bind, ret, throw, get_isolate, put_isolate, external;
  cbn [isolate calls fst snd].

Lemma calls_grow (l : list Event) (ev : Event) : l ++ [ev] <> l.
Proof.
  intros H. apply (f_equal (@List.length Event)) in H.
  rewrite length_app in H. simpl in H. lia.
Qed.

Section ExternalCalls.
Context {A : Type}.

(** A call that leaves the file adds exactly its event to the log. *)
Lemma external_calls (ev : Event) (impl : Isolate -> Maybe A * Isolate)
  (w : World) :
  calls (snd (external ev impl w)) = calls w ++ [ev].
Proof. unfold external. now destruct (impl (isolate w)). Qed.
End ExternalCalls.

(** ** The fast-path classifier *)

Section Classifier.
Context {rt : Runtime}.
Variable isolate : Isolate.

(** The force-slow-path debug flag is compiled in and switched on. *)
Definition force_slow_path_on : bool :=
  V8_ENABLE_FORCE_SLOW_PATH build && force_slow_path isolate.

(** The four checks, each stated on its own. *)
Definition object_like (obj : Object) : Prop :=
  exists recv, obj = JSReceiver recv.

Definition has_initial_map (obj : Object) : Prop :=
  exists recv,
    obj = JSReceiver recv /\
    map_of isolate recv = initial_map (regexp_function isolate).

Definition has_initial_prototype_map (obj : Object) : Prop :=
  exists recv proto,
    obj = JSReceiver recv /\
    prototype (map_at isolate (map_of isolate recv)) = JSReceiver proto /\
    map_of isolate proto = regexp_prototype_map isolate.

Definition has_small_cursor (obj : Object) : Prop :=
  exists recv c,
    obj = JSReceiver recv /\
    JSRegExp_last_index isolate recv = Smi c /\ 0 <= c.

Lemma IsUnmodifiedRegExp_true (obj : Object) :
  IsUnmodifiedRegExp isolate obj = true <->
  force_slow_path_on = false /\
  object_like obj /\ has_initial_map obj /\
  has_initial_prototype_map obj /\ has_small_cursor obj.
Proof.
  unfold IsUnmodifiedRegExp, force_slow_path_on, object_like,
    has_initial_map, has_initial_prototype_map, has_small_cursor.
  destruct (V8_ENABLE_FORCE_SLOW_PATH build && force_slow_path isolate).
  { split; [discriminate | intros [H _]; discriminate]. }
  destruct obj as [v | f | k | s | d | recv];
    try (split; [discriminate | intros (_ & [r Hr] & _); discriminate]).
  destruct (N.eqb_spec (map_of isolate recv)
                       (initial_map (regexp_function isolate))) as [Hm | Hm];
    simpl.
  2:{ split; [discriminate |].
      intros (_ & _ & (r & Hr & Hr') & _). injection Hr as <-. contradiction. }
  destruct (prototype (map_at isolate (map_of isolate recv)))
    as [v | f | k | s | d | proto] eqn:Hproto;
    try (split; [discriminate |];
         intros (_ & _ & _ & (r & p & Hr & Hp & _) & _);
         injection Hr as <-; congruence).
  destruct (N.eqb_spec (map_of isolate proto) (regexp_prototype_map isolate))
    as [Hpm | Hpm]; simpl.
  2:{ split; [discriminate |].
      intros (_ & _ & _ & (r & p & Hr & Hp & Hp') & _).
      injection Hr as <-. rewrite Hproto in Hp. injection Hp as <-.
      contradiction. }
  destruct (JSRegExp_last_index isolate recv)
    as [c | f | k | s | d | q] eqn:Hli; simpl;
    try (split; [discriminate |];
         intros (_ & _ & _ & _ & (r & c' & Hr & Hc & _));
         injection Hr as <-; congruence).
  split.
  - intros Hc. apply Z.leb_le in Hc.
    repeat split; eauto 6.
  - intros (_ & _ & _ & _ & (r & c' & Hr & Hc & Hpos)).
    injection Hr as <-. rewrite Hli in Hc. injection Hc as <-.
    now apply Z.leb_le.
Qed.

End Classifier.

(** C6. [IsUnmodifiedRegExp] answers [true] exactly when the
    force-slow-path flag is not on and the four checks pass: the input is
    a receiver, its map is the initial map of the regexp function, the map
    of its prototype is the regexp prototype map, and the lastIndex slot
    holds a non-negative Smi. Any single failed check gives [false], and
    so does the flag when it is on. The function reads the isolate and
    returns a boolean: it has no effect. *)
Theorem IsUnmodifiedRegExp_spec {rt : Runtime} (isolate : Isolate)
  (obj : Object) :
  (IsUnmodifiedRegExp isolate obj = true <->
   force_slow_path_on isolate = false /\
   object_like obj /\ has_initial_map isolate obj /\
   has_initial_prototype_map isolate obj /\ has_small_cursor isolate obj) /\
  (force_slow_path_on isolate = true ->
   IsUnmodifiedRegExp isolate obj = false) /\
  (~ object_like obj -> IsUnmodifiedRegExp isolate obj = false) /\
  (~ has_initial_map isolate obj -> IsUnmodifiedRegExp isolate obj = false) /\
  (~ has_initial_prototype_map isolate obj ->
   IsUnmodifiedRegExp isolate obj = false) /\
  (~ has_small_cursor isolate obj -> IsUnmodifiedRegExp isolate obj = false).
Proof.
  pose proof (IsUnmodifiedRegExp_true isolate obj) as Hiff.
  split; [exact Hiff |].
  repeat split; intros Hfail;
    destruct (IsUnmodifiedRegExp isolate obj); try reflexivity;
    destruct Hiff as [Hiff _];
    destruct (Hiff eq_refl) as (Hflag & Ho & Hm & Hp & Hc);
    solve [congruence | contradiction].
Qed.

(** A canonical regexp, one whose cursor slot holds -1, and a value
    that is no receiver. *)
Lemma IsUnmodifiedRegExp_spec_witness :
  IsUnmodifiedRegExp (rt := Reference.runtime) Reference.the_isolate
    (JSReceiver Reference.a_regexp) = true /\
  IsUnmodifiedRegExp (rt := Reference.runtime) Reference.the_isolate
    (JSReceiver Reference.a_negative_regexp) = false /\
  IsUnmodifiedRegExp (rt := Reference.runtime) Reference.the_isolate
    (Smi 4) = false.
Proof.
  split; [| split].
  - destruct (IsUnmodifiedRegExp_spec (rt := Reference.runtime)
                Reference.the_isolate (JSReceiver Reference.a_regexp))
      as [[_ Hall] _].
    apply Hall.
    split; [reflexivity |].
    split; [now exists Reference.a_regexp |].
    split; [now exists Reference.a_regexp |].
    split; [now exists Reference.a_regexp, Reference.the_prototype |].
    exists Reference.a_regexp, 4. repeat split. lia.
  - destruct (IsUnmodifiedRegExp_spec (rt := Reference.runtime)
                Reference.the_isolate
                (JSReceiver Reference.a_negative_regexp))
      as (_ & _ & _ & _ & _ & Hcursor).
    apply Hcursor.
    intros (recv & c & Hrecv & Hslot & Hc). injection Hrecv as <-.
    vm_compute in Hslot. injection Hslot as <-. lia.
  - destruct (IsUnmodifiedRegExp_spec (rt := Reference.runtime)
                Reference.the_isolate (Smi 4))
      as (_ & _ & Hobject & _).
    apply Hobject.
    intros [recv H]. discriminate.
Defined.

(** ** The cursor accessors *)

Section Cursor.
Context {rt : Runtime}.

(** The direct path of [GetLastIndex]: the slot is returned, nothing is
    called and the world is left as it was. *)
Definition get_direct (recv : address) (w : World) : Prop :=
  GetLastIndex recv w = (Just (JSRegExp_last_index (isolate w) recv), w).

(** The generic path: one property read of "lastIndex". *)
Definition get_generic (recv : address) (w : World) : Prop :=
  GetLastIndex recv w
  = Object_GetProperty (JSReceiver recv) lastIndex_string w.

(** The direct path of [SetLastIndex]: the number is stored in the
    slot, nothing is called, and the receiver is returned. *)
Definition set_direct (recv : address) (value : Z) (w : World) : Prop :=
  SetLastIndex recv value w
  = (Just (JSReceiver recv),
     {| isolate :=
          JSRegExp_set_last_index (isolate w) recv
            (NewNumberFromInt64 (Int.to_int64 value));
        calls := calls w |}).

(** The generic path: one strict property write of "lastIndex". *)
Definition set_generic (recv : address) (value : Z) (w : World) : Prop :=
  SetLastIndex recv value w
  = Object_SetProperty (JSReceiver recv) lastIndex_string
      (NewNumberFromInt64 (Int.to_int64 value)) kStrict w.

(** The accessors choose the direct path exactly for canonical
    matchers. *)
Definition direct_iff_canonical (recv : address) (value : Z) (w : World)
  : Prop :=
  (get_direct recv w
   <-> IsUnmodifiedRegExp (isolate w) (JSReceiver recv) = true) /\
  (set_direct recv value w
   <-> IsUnmodifiedRegExp (isolate w) (JSReceiver recv) = true).

Lemma GetLastIndex_cases (recv : address) (w : World) :
  (HasInitialRegExpMap (isolate w) recv = true /\ get_direct recv w) \/
  (HasInitialRegExpMap (isolate w) recv = false /\ get_generic recv w /\
   ~ get_direct recv w).
Proof.
  unfold get_direct, get_generic, GetLastIndex. run.
  destruct (HasInitialRegExpMap (isolate w) recv); [left | right]; auto.
  repeat split. intros H.
  apply (f_equal (fun r => calls (snd r))) in H.
  unfold Object_GetProperty in H. rewrite external_calls in H. simpl in H.
  now apply calls_grow in H.
Qed.

Lemma SetLastIndex_cases (recv : address) (value : Z) (w : World) :
  (HasInitialRegExpMap (isolate w) recv = true /\ set_direct recv value w)
  \/
  (HasInitialRegExpMap (isolate w) recv = false /\
   set_generic recv value w /\ ~ set_direct recv value w).
Proof.
  unfold set_direct, set_generic, SetLastIndex. run.
  destruct (HasInitialRegExpMap (isolate w) recv); [left | right]; auto.
  repeat split. intros H.
  apply (f_equal (fun r => calls (snd r))) in H.
  unfold Object_SetProperty in H. rewrite external_calls in H. simpl in H.
  now apply calls_grow in H.
Qed.

Lemma canonical_has_initial_map (isolate : Isolate) (recv : address) :
  IsUnmodifiedRegExp isolate (JSReceiver recv) = true ->
  HasInitialRegExpMap isolate recv = true.
Proof.
  intros H. apply IsUnmodifiedRegExp_true in H.
  destruct H as (_ & _ & (r & Hr & Hm) & _). injection Hr as <-.
  unfold HasInitialRegExpMap. now apply N.eqb_eq.
Qed.

End Cursor.

(** C1, as amended. [GetLastIndex] and [SetLastIndex] take the direct
    slot path (no property protocol, no getter or setter, no error)
    exactly when the map of the matcher is the initial map of the regexp
    function, and otherwise do one generic get, or one strict set, of
    "lastIndex". Every matcher [IsUnmodifiedRegExp] accepts is on the
    direct path. *)
Theorem LastIndex_direct_iff_initial_map {rt : Runtime} (recv : address)
  (value : Z) (w : World) :
  (get_direct recv w <-> HasInitialRegExpMap (isolate w) recv = true) /\
  (set_direct recv value w <-> HasInitialRegExpMap (isolate w) recv = true) /\
  (HasInitialRegExpMap (isolate w) recv = false ->
   get_generic recv w /\ set_generic recv value w) /\
  (IsUnmodifiedRegExp (isolate w) (JSReceiver recv) = true ->
   get_direct recv w /\ set_direct recv value w).
Proof.
  destruct (GetLastIndex_cases recv w) as [[Hm Hg] | (Hm & Hg & Hng)];
    destruct (SetLastIndex_cases recv value w) as [[Hm' Hs] | (Hm' & Hs & Hns)];
    try congruence.
  - split; [tauto |]. split; [tauto |]. split; [congruence | auto].
  - split; [split; [contradiction | congruence] |].
    split; [split; [contradiction | congruence] |].
    split; [auto |].
    intros Hc. apply canonical_has_initial_map in Hc. congruence.
Qed.

(** A regexp with the initial map, and a custom matcher whose cursor is
    an ordinary property. *)
Lemma LastIndex_direct_iff_initial_map_witness :
  GetLastIndex (rt := Reference.runtime) Reference.a_regexp
    Reference.the_world
  = (Just (Smi 4), Reference.the_world) /\
  GetLastIndex (rt := Reference.runtime) Reference.a_custom_matcher
    Reference.the_world
  = (Just (Smi 4),
     {| isolate := Reference.the_isolate;
        calls := [EvGetProperty (JSReceiver Reference.a_custom_matcher)
                                lastIndex_string] |}).
Proof.
  split.
  - destruct (LastIndex_direct_iff_initial_map (rt := Reference.runtime)
                Reference.a_regexp 0 Reference.the_world)
      as ([_ Hdirect] & _).
    exact (Hdirect eq_refl).
  - destruct (LastIndex_direct_iff_initial_map (rt := Reference.runtime)
                Reference.a_custom_matcher 0 Reference.the_world)
      as (_ & _ & Hgeneric & _).
    destruct (Hgeneric eq_refl) as [Hget _].
    unfold get_generic in Hget. rewrite Hget. reflexivity.
Defined.

(** C1, as stated, fails: a regexp that still has the initial map but
    whose lastIndex slot holds -1 is not canonical, and both accessors
    take the direct path on it. *)
Lemma direct_path_on_foreign_matcher :
  IsUnmodifiedRegExp (rt := Reference.runtime) Reference.the_isolate
    (JSReceiver Reference.a_negative_regexp) = false /\
  get_direct (rt := Reference.runtime)
    Reference.a_negative_regexp Reference.the_world /\
  set_direct (rt := Reference.runtime)
    Reference.a_negative_regexp 7 Reference.the_world /\
  ~ direct_iff_canonical (rt := Reference.runtime)
      Reference.a_negative_regexp 7 Reference.the_world.
Proof.
  assert (Hc : IsUnmodifiedRegExp (rt := Reference.runtime)
                 Reference.the_isolate
                 (JSReceiver Reference.a_negative_regexp) = false)
    by (vm_compute; reflexivity).
  assert (Hg : get_direct (rt := Reference.runtime)
                 Reference.a_negative_regexp Reference.the_world)
    by (vm_compute; reflexivity).
  assert (Hs : set_direct (rt := Reference.runtime)
                 Reference.a_negative_regexp 7 Reference.the_world)
    by (vm_compute; reflexivity).
  repeat split; try assumption.
  intros [[Hdir _] _]. specialize (Hdir Hg).
  simpl in Hdir. rewrite Hc in Hdir. discriminate.
Qed.

(** C10. On a matcher with the initial map, [SetLastIndex] cannot fail:
    it returns the matcher itself, stores in the lastIndex slot the
    number the runtime makes of the argument, calls nothing, and leaves
    the map of the matcher, every other object and every map alone. *)
Theorem SetLastIndex_initial_map {rt : Runtime} (recv : address) (value : Z)
  (w : World) :
  HasInitialRegExpMap (isolate w) recv = true ->
  0 <= value <= Int.kMaxUInt64 ->
  exists w',
    SetLastIndex recv value w = (Just (JSReceiver recv), w') /\
    JSRegExp_last_index (isolate w') recv
    = NewNumberFromInt64 (Int.to_int64 value) /\
    (value < 2 ^ 63 ->
     JSRegExp_last_index (isolate w') recv = NewNumberFromInt64 value) /\
    calls w' = calls w /\
    map_of (isolate w') recv = map_of (isolate w) recv /\
    (forall other, other <> recv ->
                   objects (isolate w') !! other = objects (isolate w) !! other) /\
    maps (isolate w') = maps (isolate w).
Proof.
  intros Hmap Hvalue.
  destruct (SetLastIndex_cases recv value w) as [[_ Hs] | [Hm _]];
    [| congruence].
  eexists. split; [exact Hs |]. simpl.
  unfold JSRegExp_last_index, JSRegExp_set_last_index, map_of. simpl.
  rewrite lookup_total_insert_eq. simpl.
  repeat split.
  - intros Hlt. rewrite Int.to_int64_id; [reflexivity | lia].
  - intros other Hne. now rewrite lookup_insert_ne.
Qed.

Lemma SetLastIndex_initial_map_witness :
  exists w',
    SetLastIndex (rt := Reference.runtime) Reference.a_regexp 5
      Reference.the_world
    = (Just (JSReceiver Reference.a_regexp), w') /\
    JSRegExp_last_index (isolate w') Reference.a_regexp = Smi 5 /\
    calls w' = [].
Proof.
  destruct (SetLastIndex_initial_map (rt := Reference.runtime)
              Reference.a_regexp 5 Reference.the_world)
    as (w' & Hrun & Hslot & _ & Hcalls & _).
  - reflexivity.
  - split; vm_compute; discriminate.
  - exists w'. repeat split; assumption.
Defined.

(** ** The exec dispatcher *)

Section Dispatcher.
Context {rt : Runtime}.
Variables (regexp : address) (string : JSString).

(** Step 1 in the words of the specification: the exec value the
    dispatch works on. A supplied value that is not [undefined] is taken
    as it is; otherwise "exec" is read from the matcher. *)
Definition resolve_exec (exec : Object) : M Object :=
  if IsUndefined exec
  then Object_GetProperty (JSReceiver regexp) exec_string
  else ret exec.

(** The results a custom exec may return: [null] or a receiver. *)
Definition exec_result_ok (result : Object) : Prop :=
  result = null_value \/ exists o, result = JSReceiver o.

Definition the_call (callable : Object) : Event :=
  EvCall callable (JSReceiver regexp) [StringValue string].

Definition incompatible_receiver : Error :=
  NewTypeError kIncompatibleMethodReceiver
    [StringValue (NewStringFromAsciiChecked "RegExp.prototype.exec");
     JSReceiver regexp].

(** Steps 2 to 4 in the words of the specification. *)
Definition exec_dispatch (exec : Object) : M Object :=
  let* isolate := get_isolate in
  if IsCallable isolate exec then
    let* result :=
      Execution_Call exec (JSReceiver regexp) [StringValue string] in
    if IsNull result || IsJSReceiver result then ret result
    else throw (NewTypeError kInvalidRegExpExecResult [])
  else if IsJSRegExp isolate (JSReceiver regexp) then
    Execution_Call (regexp_exec_function isolate) (JSReceiver regexp)
                   [StringValue string]
  else throw incompatible_receiver.

Lemma exec_result_ok_dec (result : Object) :
  (exec_result_ok result /\ IsNull result || IsJSReceiver result = true) \/
  (~ exec_result_ok result /\ IsNull result || IsJSReceiver result = false).
Proof.
  unfold exec_result_ok, null_value.
  destruct result as [v | f | [ | | | ] | s | d | o]; simpl;
    try (right; split; [intros [H | [o' H]]; discriminate | reflexivity]).
  - left. split; [now left | reflexivity].
  - left. split; [right; now exists o | reflexivity].
Qed.

(** The source is step 1 followed by steps 2 to 4. *)
Lemma RegExpExec_steps (exec : Object) (w : World) :
  RegExpExec regexp string exec w
  = bind (resolve_exec exec) exec_dispatch w.
Proof.
  unfold RegExpExec, exec_dispatch, resolve_exec, bind.
  destruct ((if IsUndefined exec
             then Object_GetProperty (JSReceiver regexp) exec_string
             else ret exec) w) as [[exec' | e] w1]; [| reflexivity].
  unfold get_isolate.
  destruct (IsCallable (isolate w1) exec').
  - destruct (Execution_Call exec' (JSReceiver regexp) [StringValue string] w1)
      as [[result | e] w2]; [| reflexivity].
    now destruct result as [v | f | [ | | | ] | s | d | o].
  - now destruct (IsJSRegExp (isolate w1) (JSReceiver regexp)).
Qed.

Lemma RegExpExec_resolved (exec exec' : Object) (w w1 : World) :
  resolve_exec exec w = (Just exec', w1) ->
  RegExpExec regexp string exec w = exec_dispatch exec' w1.
Proof.
  intros H. rewrite RegExpExec_steps. unfold bind at 1. now rewrite H.
Qed.

(** What a dispatch adds to the log holds no property read. *)
Lemma exec_dispatch_calls (exec : Object) (w : World) :
  calls (snd (exec_dispatch exec w)) = calls w \/
  exists callable,
    calls (snd (exec_dispatch exec w)) = calls w ++ [the_call callable].
Proof.
  unfold exec_dispatch, Execution_Call. run.
  destruct (IsCallable (isolate w) exec).
  - right. exists exec. unfold the_call.
    destruct (Execution_Call_impl exec (JSReceiver regexp)
                [StringValue string] (isolate w)) as [[result | e] i];
      [| reflexivity].
    now destruct (IsNull result || IsJSReceiver result).
  - destruct (IsJSRegExp (isolate w) (JSReceiver regexp)); [| now left].
    right. exists (regexp_exec_function (isolate w)). unfold the_call.
    now destruct (Execution_Call_impl (regexp_exec_function (isolate w))
                    (JSReceiver regexp) [StringValue string] (isolate w)).
Qed.

End Dispatcher.

(** C2. When the exec value the dispatcher works on (supplied, or read
    from the matcher) is callable, [RegExpExec] calls it with the matcher
    as receiver and the subject as its only argument. A result that is
    [null] or a receiver is returned as it is; any other result is an
    InvalidRegExpExecResult type error; an exception of the call is
    passed on. *)
Theorem RegExpExec_callable {rt : Runtime} (regexp : address)
  (string : JSString) (exec exec' : Object) (w w1 : World)
  (r : Maybe Object) (i2 : Isolate) :
  resolve_exec regexp exec w = (Just exec', w1) ->
  IsCallable (isolate w1) exec' = true ->
  Execution_Call_impl exec' (JSReceiver regexp) [StringValue string]
                      (isolate w1) = (r, i2) ->
  let w2 := {| isolate := i2;
               calls := calls w1 ++ [the_call regexp string exec'] |} in
  (forall result, r = Just result -> exec_result_ok result ->
                  RegExpExec regexp string exec w = (Just result, w2)) /\
  (forall result, r = Just result -> ~ exec_result_ok result ->
                  RegExpExec regexp string exec w
                  = (Thrown (NewTypeError kInvalidRegExpExecResult []), w2)) /\
  (forall e, r = Thrown e ->
             RegExpExec regexp string exec w = (Thrown e, w2)).
Proof.
  intros Hres Hcall Himpl w2.
  rewrite (RegExpExec_resolved regexp string exec exec' w w1 Hres).
  unfold exec_dispatch, Execution_Call. run. rewrite Hcall, Himpl.
  repeat split.
  - intros result -> Hok.
    destruct (exec_result_ok_dec result) as [[_ Hb] | [Hn _]];
      [now rewrite Hb | contradiction].
  - intros result -> Hbad.
    destruct (exec_result_ok_dec result) as [[Hok _] | [_ Hb]];
      [contradiction | now rewrite Hb].
  - now intros e ->.
Qed.

(** The scenario of the specification: "exec" is a function returning
    the number 3. *)
Lemma RegExpExec_callable_witness :
  RegExpExec (rt := Reference.runtime) Reference.a_custom_matcher
    Reference.ten_units undefined_value Reference.the_world
  = (Thrown (NewTypeError kInvalidRegExpExecResult []),
     {| isolate := Reference.the_isolate;
        calls :=
          [EvGetProperty (JSReceiver Reference.a_custom_matcher) exec_string;
           EvCall (JSReceiver Reference.returns_three)
                  (JSReceiver Reference.a_custom_matcher)
                  [StringValue Reference.ten_units]] |}).
Proof.
  destruct (RegExpExec_callable (rt := Reference.runtime)
              Reference.a_custom_matcher Reference.ten_units
              undefined_value (JSReceiver Reference.returns_three)
              Reference.the_world
              {| isolate := Reference.the_isolate;
                 calls := [EvGetProperty
                             (JSReceiver Reference.a_custom_matcher)
                             exec_string] |}
              (Just (Smi 3)) Reference.the_isolate
              eq_refl eq_refl eq_refl)
    as (_ & Hbad & _).
  apply (Hbad (Smi 3)); [reflexivity |].
  intros [H | [o H]]; discriminate.
Defined.

(** C3. When the exec value the dispatcher works on is not callable: a
    matcher that is not a JSRegExp gets an IncompatibleMethodReceiver
    type error, and nothing has been called after the exec value was
    resolved; on a JSRegExp the dispatcher calls the built-in exec
    function of the isolate with the matcher as receiver and the subject
    as its only argument, and returns what the call returns. *)
Theorem RegExpExec_not_callable {rt : Runtime} (regexp : address)
  (string : JSString) (exec exec' : Object) (w w1 : World) :
  resolve_exec regexp exec w = (Just exec', w1) ->
  IsCallable (isolate w1) exec' = false ->
  (IsJSRegExp (isolate w1) (JSReceiver regexp) = false ->
   RegExpExec regexp string exec w
   = (Thrown (incompatible_receiver regexp), w1)) /\
  (IsJSRegExp (isolate w1) (JSReceiver regexp) = true ->
   RegExpExec regexp string exec w
   = Execution_Call (regexp_exec_function (isolate w1)) (JSReceiver regexp)
                    [StringValue string] w1 /\
   calls (snd (RegExpExec regexp string exec w))
   = calls w1 ++ [the_call regexp string (regexp_exec_function (isolate w1))]).
Proof.
  intros Hres Hcall.
  rewrite (RegExpExec_resolved regexp string exec exec' w w1 Hres).
  unfold exec_dispatch. run. rewrite Hcall.
  split; intros ->; [reflexivity |].
  split; [reflexivity |].
  unfold Execution_Call. now rewrite external_calls.
Qed.

(** The scenario of the specification: "exec" is 42, on a plain object
    and on a regexp. *)
Lemma RegExpExec_not_callable_witness :
  RegExpExec (rt := Reference.runtime) Reference.a_plain_object
    Reference.ten_units undefined_value Reference.the_world
  = (Thrown (incompatible_receiver Reference.a_plain_object),
     {| isolate := Reference.the_isolate;
        calls := [EvGetProperty (JSReceiver Reference.a_plain_object)
                                exec_string] |}) /\
  RegExpExec (rt := Reference.runtime) Reference.a_patched_regexp
    Reference.ten_units (Smi 42) Reference.the_world
  = (Just null_value,
     {| isolate := Reference.the_isolate;
        calls := [EvCall (JSReceiver Reference.builtin_exec)
                         (JSReceiver Reference.a_patched_regexp)
                         [StringValue Reference.ten_units]] |}).
Proof.
  split.
  - destruct (RegExpExec_not_callable (rt := Reference.runtime)
                Reference.a_plain_object Reference.ten_units
                undefined_value (Smi 42) Reference.the_world
                {| isolate := Reference.the_isolate;
                   calls := [EvGetProperty
                               (JSReceiver Reference.a_plain_object)
                               exec_string] |}
                eq_refl eq_refl)
      as [Hforeign _].
    now apply Hforeign.
  - destruct (RegExpExec_not_callable (rt := Reference.runtime)
                Reference.a_patched_regexp Reference.ten_units
                (Smi 42) (Smi 42) Reference.the_world Reference.the_world
                eq_refl eq_refl)
      as [_ Hgenuine].
    destruct Hgenuine as [Hrun _]; [reflexivity |].
    rewrite Hrun. reflexivity.
Defined.

(** C9. A supplied exec value that is [undefined] makes [RegExpExec]
    read "exec" from the matcher first: the read is the next call in the
    log, its exception is passed on, and its value is dispatched on. A
    supplied value that is not [undefined] is dispatched on as it is, and
    no property is read. *)
Theorem RegExpExec_reads_exec_iff_undefined {rt : Runtime} (regexp : address)
  (string : JSString) (exec : Object) (w : World) :
  (IsUndefined exec = true ->
   (exists rest,
      calls (snd (RegExpExec regexp string exec w))
      = calls w ++ EvGetProperty (JSReceiver regexp) exec_string :: rest) /\
   (forall e w1,
      Object_GetProperty (JSReceiver regexp) exec_string w = (Thrown e, w1) ->
      RegExpExec regexp string exec w = (Thrown e, w1)) /\
   (forall f w1,
      Object_GetProperty (JSReceiver regexp) exec_string w = (Just f, w1) ->
      RegExpExec regexp string exec w = exec_dispatch regexp string f w1)) /\
  (IsUndefined exec = false ->
   RegExpExec regexp string exec w = exec_dispatch regexp string exec w /\
   exists rest,
     calls (snd (RegExpExec regexp string exec w)) = calls w ++ rest /\
     Forall (fun ev => forall o n, ev <> EvGetProperty o n) rest).
Proof.
  split; intros Hundef.
  - assert (Hthrow : forall e w1,
      Object_GetProperty (JSReceiver regexp) exec_string w = (Thrown e, w1) ->
      RegExpExec regexp string exec w = (Thrown e, w1)).
    { intros e w1 H. rewrite RegExpExec_steps.
      unfold bind, resolve_exec. now rewrite Hundef, H. }
    assert (Hjust : forall f w1,
      Object_GetProperty (JSReceiver regexp) exec_string w = (Just f, w1) ->
      RegExpExec regexp string exec w = exec_dispatch regexp string f w1).
    { intros f w1 H. apply RegExpExec_resolved.
      unfold resolve_exec. now rewrite Hundef. }
    split; [| split; assumption].
    pose proof (external_calls
                  (EvGetProperty (JSReceiver regexp) exec_string)
                  (Object_GetProperty_impl (JSReceiver regexp) exec_string) w)
      as Hlog.
    fold (Object_GetProperty (JSReceiver regexp) exec_string) in Hlog.
    destruct (Object_GetProperty (JSReceiver regexp) exec_string w)
      as [[f | e] w1] eqn:Hget; simpl in Hlog.
    + rewrite (Hjust f w1 eq_refl).
      destruct (exec_dispatch_calls regexp string f w1) as [Hc | [c Hc]];
        rewrite Hc, Hlog.
      * now exists [].
      * exists [the_call regexp string c]. now rewrite <- app_assoc.
    + rewrite (Hthrow e w1 eq_refl). simpl. rewrite Hlog. now exists [].
  - assert (Hrun : RegExpExec regexp string exec w
                   = exec_dispatch regexp string exec w).
    { apply RegExpExec_resolved. unfold resolve_exec. now rewrite Hundef. }
    split; [exact Hrun |]. rewrite Hrun.
    destruct (exec_dispatch_calls regexp string exec w) as [Hc | [c Hc]].
    + exists []. rewrite Hc, app_nil_r. split; [reflexivity | constructor].
    + exists [the_call regexp string c]. split; [exact Hc |].
      repeat constructor. intros o n H. discriminate.
Qed.

(** A supplied function is called without any read; a supplied
    [undefined] reads "exec", here through a getter that throws. *)
Lemma RegExpExec_reads_exec_iff_undefined_witness :
  RegExpExec (rt := Reference.runtime) Reference.a_trapped_object
    Reference.ten_units (JSReceiver Reference.returns_null)
    Reference.the_world
  = (Just null_value,
     {| isolate := Reference.the_isolate;
        calls := [EvCall (JSReceiver Reference.returns_null)
                         (JSReceiver Reference.a_trapped_object)
                         [StringValue Reference.ten_units]] |}) /\
  RegExpExec (rt := Reference.runtime) Reference.a_trapped_object
    Reference.ten_units undefined_value Reference.the_world
  = (Thrown (UserError (Smi 7)),
     {| isolate := Reference.the_isolate;
        calls := [EvGetProperty (JSReceiver Reference.a_trapped_object)
                                exec_string] |}).
Proof.
  split.
  - destruct (RegExpExec_reads_exec_iff_undefined (rt := Reference.runtime)
                Reference.a_trapped_object Reference.ten_units
                (JSReceiver Reference.returns_null) Reference.the_world)
      as [_ Hdefined].
    destruct (Hdefined eq_refl) as [Hrun _]. rewrite Hrun. reflexivity.
  - destruct (RegExpExec_reads_exec_iff_undefined (rt := Reference.runtime)
                Reference.a_trapped_object Reference.ten_units
                undefined_value Reference.the_world)
      as [Hundefined _].
    destruct (Hundefined eq_refl) as (_ & Hthrow & _).
    now apply Hthrow.
Defined.

(** ** The matcher-identity predicate *)

(** C7. [IsRegExp] answers [false], with nothing called, on a value that
    is not a receiver. On a receiver it reads the property under the
    match symbol: an exception of the read is passed on; a value other
    than [undefined] is answered by its boolean coercion; and
    [undefined] is answered by whether the object is a JSRegExp. *)
Theorem IsRegExp_spec {rt : Runtime} (object : Object) (w : World) :
  (IsJSReceiver object = false -> IsRegExp object w = (Just false, w)) /\
  (IsJSReceiver object = true ->
   (forall e w1,
      Object_GetProperty object match_symbol w = (Thrown e, w1) ->
      IsRegExp object w = (Thrown e, w1)) /\
   (forall m w1,
      Object_GetProperty object match_symbol w = (Just m, w1) ->
      (IsUndefined m = false ->
       IsRegExp object w = (Just (Object_BooleanValue (isolate w1) m), w1)) /\
      (IsUndefined m = true ->
       IsRegExp object w = (Just (IsJSRegExp (isolate w1) object), w1)))).
Proof.
  unfold IsRegExp. split; intros ->; [reflexivity |].
  cbn [negb]. unfold bind. split.
  - intros e w1 ->. reflexivity.
  - intros m w1 ->. unfold get_isolate, ret.
    split; intros ->; reflexivity.
Qed.

(** A number, an object marked with the match symbol, a regexp without
    the mark, and an object whose mark is a getter that throws. *)
Lemma IsRegExp_spec_witness :
  IsRegExp (rt := Reference.runtime) (Smi 4) Reference.the_world
  = (Just false, Reference.the_world) /\
  fst (IsRegExp (rt := Reference.runtime)
         (JSReceiver Reference.a_marked_object) Reference.the_world)
  = Just true /\
  fst (IsRegExp (rt := Reference.runtime)
         (JSReceiver Reference.a_regexp) Reference.the_world)
  = Just true /\
  fst (IsRegExp (rt := Reference.runtime)
         (JSReceiver Reference.a_trapped_object) Reference.the_world)
  = Thrown (UserError (Smi 7)).
Proof.
  split; [| split; [| split]].
  - now apply (IsRegExp_spec (rt := Reference.runtime)).
  - destruct (IsRegExp_spec (rt := Reference.runtime)
                (JSReceiver Reference.a_marked_object) Reference.the_world)
      as [_ Hrecv].
    destruct (Hrecv eq_refl) as [_ Hread].
    destruct (Hread (Oddball kTrue)
                {| isolate := Reference.the_isolate;
                   calls := [EvGetProperty
                               (JSReceiver Reference.a_marked_object)
                               match_symbol] |} eq_refl) as [Hdefined _].
    now rewrite (Hdefined eq_refl).
  - destruct (IsRegExp_spec (rt := Reference.runtime)
                (JSReceiver Reference.a_regexp) Reference.the_world)
      as [_ Hrecv].
    destruct (Hrecv eq_refl) as [_ Hread].
    destruct (Hread undefined_value
                {| isolate := Reference.the_isolate;
                   calls := [EvGetProperty (JSReceiver Reference.a_regexp)
                                           match_symbol] |} eq_refl)
      as [_ Hundefined].
    now rewrite (Hundefined eq_refl).
  - destruct (IsRegExp_spec (rt := Reference.runtime)
                (JSReceiver Reference.a_trapped_object) Reference.the_world)
      as [_ Hrecv].
    destruct (Hrecv eq_refl) as [Hthrow _].
    now rewrite (Hthrow (UserError (Smi 7))
                   {| isolate := Reference.the_isolate;
                      calls := [EvGetProperty
                                  (JSReceiver Reference.a_trapped_object)
                                  match_symbol] |} eq_refl).
Defined.

(** ** Advance and rewrite *)

Section AdvanceAndRewrite.
Context {rt : Runtime}.
Variables (regexp : address) (string : JSString) (unicode : bool).

Definition read_cursor : Event :=
  EvGetProperty (JSReceiver regexp) lastIndex_string.

(** The index written back for a coerced cursor [n]. *)
Definition advanced (n : Object) : Z :=
  AdvanceStringIndex string (Int.to_uint64 (PositiveNumberToUint64 n))
                     unicode.

Lemma SetAdvancedStringIndex_steps (w : World) :
  SetAdvancedStringIndex regexp string unicode w
  = match Object_GetProperty (JSReceiver regexp) lastIndex_string w with
    | (Thrown e, w1) => (Thrown e, w1)
    | (Just v, w1) =>
        match Object_ToLength v w1 with
        | (Thrown e, w2) => (Thrown e, w2)
        | (Just n, w2) => SetLastIndex regexp (advanced n) w2
        end
    end.
Proof. reflexivity. Qed.

(** [SetLastIndex] only ever adds to the log. *)
Lemma SetLastIndex_calls (value : Z) (w : World) :
  exists rest, calls (snd (SetLastIndex regexp value w)) = calls w ++ rest.
Proof.
  destruct (SetLastIndex_cases regexp value w) as [[_ H] | (_ & H & _)];
    rewrite H.
  - exists []. now rewrite app_nil_r.
  - unfold Object_SetProperty. rewrite external_calls. now eexists.
Qed.

Lemma SetAdvancedStringIndex_reads_first (w : World) :
  exists rest,
    calls (snd (SetAdvancedStringIndex regexp string unicode w))
    = calls w ++ read_cursor :: rest.
Proof.
  rewrite SetAdvancedStringIndex_steps.
  assert (Hget : calls (snd (Object_GetProperty (JSReceiver regexp)
                                                lastIndex_string w))
                 = calls w ++ [read_cursor]) by apply external_calls.
  destruct (Object_GetProperty (JSReceiver regexp) lastIndex_string w)
    as [[v | e] w1]; simpl in Hget; [| exists []; exact Hget].
  assert (Hlen : calls (snd (Object_ToLength v w1))
                 = calls w1 ++ [EvToLength v]) by apply external_calls.
  destruct (Object_ToLength v w1) as [[n | e] w2]; simpl in Hlen.
  - destruct (SetLastIndex_calls (advanced n) w2) as [rest Hset].
    exists (EvToLength v :: rest).
    rewrite Hset, Hlen, Hget, <- !app_assoc. reflexivity.
  - exists [EvToLength v]. simpl. rewrite Hlen, Hget, <- app_assoc.
    reflexivity.
Qed.

End AdvanceAndRewrite.

(** C8. [SetAdvancedStringIndex] reads "lastIndex" through the property
    protocol, whatever the matcher is (the read is the next call in the
    log, also for a canonical matcher), coerces the value read with
    [ToLength], passes on an exception of either step, and hands the
    advanced index to [SetLastIndex]. When the cursor read coerces to 4 on
    a subject of 10 units without unicode, the index written back is 5. *)
Theorem SetAdvancedStringIndex_spec {rt : Runtime} (regexp : address)
  (string : JSString) (unicode : bool) (w : World) :
  (exists rest,
     calls (snd (SetAdvancedStringIndex regexp string unicode w))
     = calls w ++ read_cursor regexp :: rest) /\
  (forall e w1,
     Object_GetProperty (JSReceiver regexp) lastIndex_string w
     = (Thrown e, w1) ->
     SetAdvancedStringIndex regexp string unicode w = (Thrown e, w1)) /\
  (forall v w1,
     Object_GetProperty (JSReceiver regexp) lastIndex_string w
     = (Just v, w1) ->
     (forall e w2,
        Object_ToLength v w1 = (Thrown e, w2) ->
        SetAdvancedStringIndex regexp string unicode w = (Thrown e, w2)) /\
     (forall n w2,
        Object_ToLength v w1 = (Just n, w2) ->
        SetAdvancedStringIndex regexp string unicode w
        = SetLastIndex regexp
            (AdvanceStringIndex string
               (Int.to_uint64 (PositiveNumberToUint64 n)) unicode) w2 /\
        (PositiveNumberToUint64 n = 4 -> Str.length string = 10 ->
         unicode = false ->
         SetAdvancedStringIndex regexp string unicode w
         = SetLastIndex regexp 5 w2))).
Proof.
  split; [apply SetAdvancedStringIndex_reads_first |].
  split.
  - intros e w1 H. rewrite SetAdvancedStringIndex_steps. now rewrite H.
  - intros v w1 H. split.
    + intros e w2 H2. rewrite SetAdvancedStringIndex_steps. now rewrite H, H2.
    + intros n w2 H2.
      assert (Hrun : SetAdvancedStringIndex regexp string unicode w
                     = SetLastIndex regexp (advanced string unicode n) w2).
      { rewrite SetAdvancedStringIndex_steps. now rewrite H, H2. }
      split; [exact Hrun |].
      intros Hn Hlen ->. rewrite Hrun. unfold advanced. rewrite Hn.
      change (Int.to_uint64 4) with 4.
      rewrite (AdvanceStringIndex_not_unicode string 4); [reflexivity |].
      split; vm_compute; discriminate.
Qed.

(** The scenario of the specification on a canonical regexp whose cursor
    is 4: the cursor is read through the property protocol and becomes
    5. *)
Lemma SetAdvancedStringIndex_scenario :
  IsUnmodifiedRegExp (rt := Reference.runtime) Reference.the_isolate
    (JSReceiver Reference.a_regexp) = true /\
  let run := SetAdvancedStringIndex (rt := Reference.runtime)
               Reference.a_regexp Reference.ten_units false
               Reference.the_world in
  fst run = Just (JSReceiver Reference.a_regexp) /\
  JSRegExp_last_index (isolate (snd run)) Reference.a_regexp = Smi 5 /\
  calls (snd run)
  = [EvGetProperty (JSReceiver Reference.a_regexp) lastIndex_string;
     EvToLength (Smi 4)].
Proof.
  split; [reflexivity |].
  destruct (SetAdvancedStringIndex_spec (rt := Reference.runtime)
              Reference.a_regexp Reference.ten_units false
              Reference.the_world) as (_ & _ & Hread).
  destruct (Hread (Smi 4)
              {| isolate := Reference.the_isolate;
                 calls := [EvGetProperty (JSReceiver Reference.a_regexp)
                                         lastIndex_string] |} eq_refl)
    as [_ Hcoerced].
  destruct (Hcoerced (Smi 4)
              {| isolate := Reference.the_isolate;
                 calls := [EvGetProperty (JSReceiver Reference.a_regexp)
                                         lastIndex_string;
                           EvToLength (Smi 4)] |} eq_refl)
    as [_ Hfive].
  cbv zeta. rewrite Hfive by reflexivity.
  repeat split.
Defined.


(** * Further properties of regexp-utils.cc *)

(** ** The index advancer on the whole of [uint64_t] *)

Lemma pair_needs_two_units (s : JSString) (i : Z) :
  0 <= i -> surrogate_pair_at s i -> i + 1 < Str.length s.
Proof.
  intros Hi (hi & lo & _ & Hlo & _).
  apply lookup_below_length in Hlo; lia.
Qed.


Lemma index_in_string_is_safe (s : JSString) (i : Z) :
  Str.length s <= Int.kMaxInt -> 0 <= i < Str.length s ->
  0 <= i <= Int.kMaxSafeInteger.
Proof. unfold Int.kMaxInt, Int.kMaxSafeInteger. lia. Qed.



(** X2. Advancing from a position inside the string makes progress and
    stays inside: for [0 <= i < length] the result is greater than [i]
    and at most [length], in either mode. *)
Theorem AdvanceStringIndex_stays_inside (s : JSString) (i : Z)
  (unicode : bool) :
  Str.length s <= Int.kMaxInt -> 0 <= i < Str.length s ->
  i < AdvanceStringIndex s i unicode <= Str.length s.
Proof.
  intros Hlen Hi.
  pose proof (index_in_string_is_safe s i Hlen Hi) as Hsafe.
  destruct unicode.
  - destruct (AdvanceStringIndex_unicode s i Hsafe Hlen)
      as [[Hp He] | [Hp He]]; rewrite He; [| lia].
    apply pair_needs_two_units in Hp; lia.
  - rewrite (AdvanceStringIndex_not_unicode s i Hsafe). lia.
Qed.

Lemma AdvanceStringIndex_stays_inside_witness :
  1 < AdvanceStringIndex [97; 0xD83D; 0xDE00] 1 true <= 3.
Proof.
  apply (AdvanceStringIndex_stays_inside [97; 0xD83D; 0xDE00] 1 true).
  - vm_compute. discriminate.
  - split; vm_compute; [discriminate | reflexivity].
Defined.

(** Position [j] lies between the two halves of a surrogate pair. *)
Definition inside_pair (s : JSString) (j : Z) : Prop :=
  0 < j /\ surrogate_pair_at s (j - 1).

(** X3. In unicode mode the advanced index never lies between the two
    halves of a surrogate pair, wherever the advance started. *)
Theorem AdvanceStringIndex_never_splits_pair (s : JSString) (i : Z) :
  0 <= i <= Int.kMaxSafeInteger -> Str.length s <= Int.kMaxInt ->
  ~ inside_pair s (AdvanceStringIndex s i true).
Proof.
  intros Hi Hlen.
  destruct (AdvanceStringIndex_unicode s i Hi Hlen) as [[Hp He] | [Hp He]];
    rewrite He; intros [_ Hin].
  - replace (i + 2 - 1) with (i + 1) in Hin by lia.
    destruct Hp as (hi & lo & _ & Hlo & _ & [Hl _]).
    destruct Hin as (hi' & lo' & Hhi' & _ & [_ Hh] & _).
    assert (hi' = lo) by congruence. lia.
  - replace (i + 1 - 1) with i in Hin by lia. contradiction.
Qed.

Lemma AdvanceStringIndex_never_splits_pair_witness :
  ~ inside_pair [97; 0xD83D; 0xDE00; 98]
      (AdvanceStringIndex [97; 0xD83D; 0xDE00; 98] 1 true) /\
  inside_pair [97; 0xD83D; 0xDE00; 98]
      (AdvanceStringIndex [97; 0xD83D; 0xDE00; 98] 1 false).
Proof.
  split.
  - apply AdvanceStringIndex_never_splits_pair.
    + split; vm_compute; discriminate.
    + vm_compute. discriminate.
  - split; [vm_compute; reflexivity |].
    exists 0xD83D, 0xDE00. unfold Str.is_high_surrogate, Str.is_low_surrogate.
    repeat split; try reflexivity; lia.
Defined.

(** ** The capture getter: the flag, the null pointer and the slice *)

Lemma Capture_of_register (t : RegExpMatchInfo) (i r : Z) :
  0 <= i -> registers t !! Z.to_nat i = Some r ->
  i < NumberOfCaptureRegisters t /\ Capture t i = Some r.
Proof.
  intros Hi Hr.
  assert (Hlt : i < NumberOfCaptureRegisters t).
  { apply lookup_lt_Some in Hr. unfold NumberOfCaptureRegisters. lia. }
  split; [exact Hlt |].
  destruct (Capture_in_range t i) as (r' & Hr' & Hc); [lia |]. congruence.
Qed.

Lemma store_ok_not_false (ok : option bool) : store_ok ok true <> Some false.
Proof. destruct ok; simpl; congruence. Qed.

(** X4. Whatever the table and the group index, a result that reports
    "not matched" carries the empty string: the getter never returns a
    non-empty string together with [false]. *)
Theorem GenericCaptureGetter_unmatched_is_empty (t : RegExpMatchInfo)
  (g : Z) (ok : option bool) (r : JSString) :
  GenericCaptureGetter t g ok = Some (r, Some false) ->
  r = Str.empty_string.
Proof.
  unfold GenericCaptureGetter.
  destruct (NumberOfCaptureRegisters t <=? Int.to_int (g * 2)).
  { intros H. injection H as <- _. reflexivity. }
  destruct (Capture t (Int.to_int (g * 2))) as [start |]; simpl;
    [| discriminate].
  destruct (Capture t (Int.to_int (Int.to_int (g * 2) + 1))) as [end_ |];
    simpl; [| discriminate].
  destruct ((start =? -1) || (end_ =? -1)).
  - intros H. injection H as <- _. reflexivity.
  - intros H. injection H as _ Hflag.
    now apply store_ok_not_false in Hflag.
Qed.

Lemma GenericCaptureGetter_unmatched_is_empty_witness :
  GenericCaptureGetter
    {| registers := [0; 3; -1; -1];
       LastSubject := NewStringFromAsciiChecked "abc" |} 1 (Some true)
  = Some (Str.empty_string, Some false).
Proof.
  set (t := {| registers := [0; 3; -1; -1];
               LastSubject := NewStringFromAsciiChecked "abc" |}).
  destruct (GenericCaptureGetter t 1 (Some true)) as [[r [[|] |]] |] eqn:Hrun;
    try (vm_compute in Hrun; discriminate).
  now rewrite (GenericCaptureGetter_unmatched_is_empty t 1 (Some true) r Hrun).
Defined.

(** X5. The [ok] pointer is optional: with a null pointer the getter
    returns the same string as with any cell, and writes nothing. *)
Theorem GenericCaptureGetter_null_ok (t : RegExpMatchInfo) (g : Z)
  (ok : option bool) :
  GenericCaptureGetter t g None
  = (fun result => (fst result, None)) <$> GenericCaptureGetter t g ok.
Proof.
  unfold GenericCaptureGetter.
  destruct (NumberOfCaptureRegisters t <=? Int.to_int (g * 2));
    [reflexivity |].
  destruct (Capture t (Int.to_int (g * 2))) as [start |]; simpl;
    [| reflexivity].
  destruct (Capture t (Int.to_int (Int.to_int (g * 2) + 1))) as [end_ |];
    simpl; [| reflexivity].
  now destruct ((start =? -1) || (end_ =? -1)).
Qed.

(** X6. A group whose registers [(start, end)] lie inside the last
    subject ([0 <= start <= end <= length]) is reported as matched, and
    the string returned is the slice of the subject that follows its
    first [start] units and has [end - start] units; it is empty exactly
    when [start = end], so an empty capture is told apart from a group
    that did not take part by the flag alone. *)
Theorem GenericCaptureGetter_slice (t : RegExpMatchInfo) (g : Z)
  (ok : option bool) (start end_ : Z) :
  0 <= g -> g * 2 + 1 <= Int.kMaxInt ->
  registers t !! Z.to_nat (g * 2) = Some start ->
  registers t !! Z.to_nat (g * 2 + 1) = Some end_ ->
  0 <= start <= end_ -> end_ <= Str.length (LastSubject t) ->
  exists before captured after,
    GenericCaptureGetter t g ok = Some (captured, store_ok ok true) /\
    LastSubject t = before ++ captured ++ after /\
    Str.length before = start /\
    Str.length captured = end_ - start /\
    (captured = Str.empty_string <-> start = end_).
Proof.
  intros Hg Hmax Hs He Hrange Hlen.
  assert (Hidx : Int.to_int (g * 2) = g * 2).
  { apply Int.to_int_id. unfold Int.is_int, Int.kMinInt, Int.kMaxInt in *. lia. }
  assert (Hidx1 : Int.to_int (g * 2 + 1) = g * 2 + 1).
  { apply Int.to_int_id. unfold Int.is_int, Int.kMinInt, Int.kMaxInt in *. lia. }
  destruct (Capture_of_register t (g * 2) start ltac:(lia) Hs) as [Hlt Cs].
  destruct (Capture_of_register t (g * 2 + 1) end_ ltac:(lia) He) as [_ Ce].
  set (subject := LastSubject t) in *.
  exists (take (Z.to_nat start) subject),
         (Str.NewSubString subject start end_),
         (drop (Z.to_nat (end_ - start)) (drop (Z.to_nat start) subject)).
  assert (Hcap : Str.length (Str.NewSubString subject start end_)
                 = end_ - start) by (apply NewSubString_length; lia).
  split; [| split; [| split; [| split]]].
  - unfold GenericCaptureGetter. rewrite Hidx, Hidx1.
    destruct (Z.leb_spec (NumberOfCaptureRegisters t) (g * 2)); [lia |].
    rewrite Cs. simpl. rewrite Ce. simpl.
    destruct (Z.eqb_spec start (-1)); [lia |].
    destruct (Z.eqb_spec end_ (-1)); [lia |]. reflexivity.
  - unfold Str.NewSubString. now rewrite !take_drop.
  - unfold Str.length in *. rewrite length_take. lia.
  - exact Hcap.
  - split.
    + intros Hempty. rewrite Hempty in Hcap. unfold Str.length in Hcap.
      simpl in Hcap. lia.
    + intros ->. unfold Str.NewSubString.
      now replace (end_ - end_) with 0 by lia.
Qed.

Lemma GenericCaptureGetter_slice_witness :
  exists before captured after,
    GenericCaptureGetter
      {| registers := [0; 8; 3; 3];
         LastSubject := NewStringFromAsciiChecked "abcdefgh" |} 1 (Some false)
    = Some (captured, Some true) /\
    NewStringFromAsciiChecked "abcdefgh" = before ++ captured ++ after /\
    Str.length before = 3 /\ captured = Str.empty_string.
Proof.
  set (t := {| registers := [0; 8; 3; 3];
               LastSubject := NewStringFromAsciiChecked "abcdefgh" |}).
  destruct (GenericCaptureGetter_slice t 1 (Some false) 3 3)
    as (before & captured & after & Hrun & Hsplit & Hbefore & _ & Hempty).
  - lia.
  - vm_compute. discriminate.
  - reflexivity.
  - reflexivity.
  - lia.
  - vm_compute. discriminate.
  - exists before, captured, after.
    repeat split; try assumption. now apply Hempty.
Defined.

(** ** The cursor slot as a store *)

Section SlotStore.
Variables (isolate : Isolate) (recv : address) (value : Object).

Lemma set_last_index_map_of (a : address) :
  map_of (JSRegExp_set_last_index isolate recv value) a = map_of isolate a.
Proof.
  unfold map_of, JSRegExp_set_last_index. simpl.
  destruct (decide (a = recv)) as [-> | Hne].
  - now rewrite lookup_total_insert_eq.
  - now rewrite lookup_total_insert_ne.
Qed.

Lemma set_last_index_read :
  JSRegExp_last_index (JSRegExp_set_last_index isolate recv value) recv
  = value.
Proof.
  unfold JSRegExp_last_index, JSRegExp_set_last_index. simpl.
  now rewrite lookup_total_insert_eq.
Qed.

Lemma set_last_index_read_other (other : address) :
  other <> recv ->
  JSRegExp_last_index (JSRegExp_set_last_index isolate recv value) other
  = JSRegExp_last_index isolate other.
Proof.
  intros Hne. unfold JSRegExp_last_index, JSRegExp_set_last_index. simpl.
  now rewrite lookup_total_insert_ne.
Qed.

Lemma set_last_index_initial_map (a : address) :
  HasInitialRegExpMap (JSRegExp_set_last_index isolate recv value) a
  = HasInitialRegExpMap isolate a.
Proof. unfold HasInitialRegExpMap. now rewrite set_last_index_map_of. Qed.

Lemma set_last_index_twice (value' : Object) :
  JSRegExp_set_last_index (JSRegExp_set_last_index isolate recv value)
                          recv value'
  = JSRegExp_set_last_index isolate recv value'.
Proof.
  unfold JSRegExp_set_last_index. simpl.
  rewrite lookup_total_insert_eq, insert_insert_eq. reflexivity.
Qed.

End SlotStore.

Section CursorStore.
Context {rt : Runtime}.

Lemma IsUnmodifiedRegExp_write_other (isolate : Isolate) (recv : address)
  (value : Object) (other : address) :
  other <> recv ->
  IsUnmodifiedRegExp (JSRegExp_set_last_index isolate recv value)
                     (JSReceiver other)
  = IsUnmodifiedRegExp isolate (JSReceiver other).
Proof.
  intros Hne. unfold IsUnmodifiedRegExp.
  change (force_slow_path (JSRegExp_set_last_index isolate recv value))
    with (force_slow_path isolate).
  change (regexp_function (JSRegExp_set_last_index isolate recv value))
    with (regexp_function isolate).
  change (regexp_prototype_map (JSRegExp_set_last_index isolate recv value))
    with (regexp_prototype_map isolate).
  change (map_at (JSRegExp_set_last_index isolate recv value))
    with (map_at isolate).
  rewrite !set_last_index_map_of.
  destruct (prototype (map_at isolate (map_of isolate other)));
    try reflexivity.
  now rewrite set_last_index_map_of, set_last_index_read_other.
Qed.

Lemma IsUnmodifiedRegExp_write_same (isolate : Isolate) (recv : address)
  (value : Object) :
  IsUnmodifiedRegExp (JSRegExp_set_last_index isolate recv value)
                     (JSReceiver recv) = true <->
  force_slow_path_on isolate = false /\
  has_initial_map isolate (JSReceiver recv) /\
  has_initial_prototype_map isolate (JSReceiver recv) /\
  exists c, value = Smi c /\ 0 <= c.
Proof.
  rewrite IsUnmodifiedRegExp_true.
  unfold force_slow_path_on, object_like, has_initial_map,
    has_initial_prototype_map, has_small_cursor.
  change (force_slow_path (JSRegExp_set_last_index isolate recv value))
    with (force_slow_path isolate).
  change (regexp_function (JSRegExp_set_last_index isolate recv value))
    with (regexp_function isolate).
  change (regexp_prototype_map (JSRegExp_set_last_index isolate recv value))
    with (regexp_prototype_map isolate).
  change (map_at (JSRegExp_set_last_index isolate recv value))
    with (map_at isolate).
  split.
  - intros (Hflag & _ & (r & Hr & Hm) & (r' & p & Hr' & Hp & Hpm)
            & (r'' & c & Hr'' & Hc & Hpos)).
    injection Hr as <-. injection Hr' as <-. injection Hr'' as <-.
    rewrite set_last_index_map_of in Hm, Hp, Hpm.
    rewrite set_last_index_read in Hc.
    split; [exact Hflag |]. split; [now exists recv |].
    split; [now exists recv, p |]. now exists c.
  - intros (Hflag & (r & Hr & Hm) & (r' & p & Hr' & Hp & Hpm)
            & (c & Hc & Hpos)).
    injection Hr as <-. injection Hr' as <-.
    split; [exact Hflag |]. split; [now exists recv |].
    split; [exists recv; now rewrite set_last_index_map_of |].
    split.
    + exists recv, p. now rewrite !set_last_index_map_of.
    + exists recv, c. now rewrite set_last_index_read.
Qed.

End CursorStore.

(** The world after a direct write. *)
Definition written {rt : Runtime} (recv : address) (value : Z) (w : World)
  : World :=
  {| isolate :=
       JSRegExp_set_last_index (isolate w) recv
         (NewNumberFromInt64 (Int.to_int64 value));
     calls := calls w |}.

Lemma SetLastIndex_direct {rt : Runtime} (recv : address) (value : Z)
  (w : World) :
  HasInitialRegExpMap (isolate w) recv = true ->
  SetLastIndex recv value w = (Just (JSReceiver recv), written recv value w).
Proof.
  intros Hmap.
  destruct (SetLastIndex_cases recv value w) as [[_ H] | [H _]];
    [exact H | congruence].
Qed.

Lemma GetLastIndex_direct {rt : Runtime} (recv : address) (w : World) :
  HasInitialRegExpMap (isolate w) recv = true ->
  GetLastIndex recv w = (Just (JSRegExp_last_index (isolate w) recv), w).
Proof.
  intros Hmap.
  destruct (GetLastIndex_cases recv w) as [[_ H] | [H _]];
    [exact H | congruence].
Qed.

(** X7. Round trip on a matcher with the initial map: [GetLastIndex]
    after [SetLastIndex] returns the number that was stored, and the two
    together call nothing. *)
Theorem SetLastIndex_then_GetLastIndex {rt : Runtime} (recv : address)
  (value : Z) (w : World) :
  HasInitialRegExpMap (isolate w) recv = true ->
  exists w',
    (let* _ := SetLastIndex recv value in GetLastIndex recv) w
    = (Just (NewNumberFromInt64 (Int.to_int64 value)), w') /\
    calls w' = calls w.
Proof.
  intros Hmap. exists (written recv value w).
  unfold bind. rewrite (SetLastIndex_direct recv value w Hmap).
  rewrite GetLastIndex_direct.
  - unfold written. cbn [isolate]. now rewrite set_last_index_read.
  - unfold written. cbn [isolate]. now rewrite set_last_index_initial_map.
Qed.

Lemma SetLastIndex_then_GetLastIndex_witness :
  exists w',
    (let* _ := SetLastIndex (rt := Reference.runtime)
                 Reference.a_negative_regexp 12 in
     GetLastIndex (rt := Reference.runtime) Reference.a_negative_regexp)
      Reference.the_world
    = (Just (Smi 12), w') /\
    calls w' = [].
Proof.
  exact (SetLastIndex_then_GetLastIndex (rt := Reference.runtime)
           Reference.a_negative_regexp 12 Reference.the_world eq_refl).
Defined.

(** X8. On a matcher with the initial map the last write wins: two
    [SetLastIndex] in a row leave the same result and the same world as
    the second alone. *)
Theorem SetLastIndex_last_write_wins {rt : Runtime} (recv : address)
  (first second : Z) (w : World) :
  HasInitialRegExpMap (isolate w) recv = true ->
  (let* _ := SetLastIndex recv first in SetLastIndex recv second) w
  = SetLastIndex recv second w.
Proof.
  intros Hmap. unfold bind.
  rewrite (SetLastIndex_direct recv first w Hmap).
  rewrite (SetLastIndex_direct recv second w Hmap).
  rewrite SetLastIndex_direct.
  - unfold written. cbn [isolate calls]. now rewrite set_last_index_twice.
  - unfold written. cbn [isolate]. now rewrite set_last_index_initial_map.
Qed.

Lemma SetLastIndex_last_write_wins_witness :
  (let* _ := SetLastIndex (rt := Reference.runtime) Reference.a_regexp 9 in
   SetLastIndex (rt := Reference.runtime) Reference.a_regexp 2)
    Reference.the_world
  = SetLastIndex (rt := Reference.runtime) Reference.a_regexp 2
      Reference.the_world.
Proof.
  exact (SetLastIndex_last_write_wins (rt := Reference.runtime)
           Reference.a_regexp 9 2 Reference.the_world eq_refl).
Defined.

(** X9. A direct write to one matcher leaves the classification of every
    other object as it was. *)
Theorem SetLastIndex_keeps_other_matchers {rt : Runtime} (recv : address)
  (value : Z) (w : World) (other : address) :
  HasInitialRegExpMap (isolate w) recv = true ->
  other <> recv ->
  IsUnmodifiedRegExp (isolate (snd (SetLastIndex recv value w)))
                     (JSReceiver other)
  = IsUnmodifiedRegExp (isolate w) (JSReceiver other).
Proof.
  intros Hmap Hne. rewrite (SetLastIndex_direct recv value w Hmap).
  unfold written. cbn [snd isolate].
  now apply IsUnmodifiedRegExp_write_other.
Qed.

Lemma SetLastIndex_keeps_other_matchers_witness :
  IsUnmodifiedRegExp (rt := Reference.runtime)
    (isolate (snd (SetLastIndex (rt := Reference.runtime)
                     Reference.a_negative_regexp 3 Reference.the_world)))
    (JSReceiver Reference.a_regexp)
  = true.
Proof.
  rewrite (SetLastIndex_keeps_other_matchers (rt := Reference.runtime)
             Reference.a_negative_regexp 3 Reference.the_world
             Reference.a_regexp eq_refl).
  - reflexivity.
  - discriminate.
Defined.

(** X10. After a direct write the matcher is canonical exactly when the
    force-slow-path flag is off, the map of its prototype is the regexp
    prototype map, and the number the runtime made of the argument is a
    non-negative Smi: a write can put a matcher on the fast path of the
    classifier and can take it off. *)
Theorem SetLastIndex_canonical_after {rt : Runtime} (recv : address)
  (value : Z) (w : World) :
  HasInitialRegExpMap (isolate w) recv = true ->
  (IsUnmodifiedRegExp (isolate (snd (SetLastIndex recv value w)))
                      (JSReceiver recv) = true <->
   force_slow_path_on (isolate w) = false /\
   has_initial_prototype_map (isolate w) (JSReceiver recv) /\
   exists c, NewNumberFromInt64 (Int.to_int64 value) = Smi c /\ 0 <= c).
Proof.
  intros Hmap. rewrite (SetLastIndex_direct recv value w Hmap).
  unfold written. cbn [snd isolate].
  rewrite IsUnmodifiedRegExp_write_same.
  assert (Hinit : has_initial_map (isolate w) (JSReceiver recv)).
  { exists recv. split; [reflexivity |].
    unfold HasInitialRegExpMap in Hmap. now apply N.eqb_eq in Hmap. }
  tauto.
Qed.

Lemma SetLastIndex_canonical_after_witness :
  IsUnmodifiedRegExp (rt := Reference.runtime)
    (isolate (snd (SetLastIndex (rt := Reference.runtime)
                     Reference.a_negative_regexp 3 Reference.the_world)))
    (JSReceiver Reference.a_negative_regexp) = true /\
  IsUnmodifiedRegExp (rt := Reference.runtime)
    (isolate (snd (SetLastIndex (rt := Reference.runtime)
                     Reference.a_regexp (2 ^ 31) Reference.the_world)))
    (JSReceiver Reference.a_regexp) = false.
Proof.
  split.
  - apply (SetLastIndex_canonical_after (rt := Reference.runtime)
             Reference.a_negative_regexp 3 Reference.the_world eq_refl).
    split; [reflexivity |].
    split; [now exists Reference.a_negative_regexp, Reference.the_prototype |].
    exists 3. split; [reflexivity | lia].
  - apply not_true_is_false. intros Hcanon.
    apply (SetLastIndex_canonical_after (rt := Reference.runtime)
             Reference.a_regexp (2 ^ 31) Reference.the_world eq_refl)
      in Hcanon.
    destruct Hcanon as (_ & _ & c & Hc & _).
    vm_compute in Hc. discriminate.
Defined.

(** X11. On a canonical matcher [GetLastIndex] returns a non-negative
    Smi, calls nothing and leaves the world as it was: no coercion of the
    cursor is needed on the fast path. *)
Theorem GetLastIndex_canonical {rt : Runtime} (recv : address) (w : World) :
  IsUnmodifiedRegExp (isolate w) (JSReceiver recv) = true ->
  exists c, 0 <= c /\ GetLastIndex recv w = (Just (Smi c), w).
Proof.
  intros Hcanon.
  rewrite (GetLastIndex_direct recv w
             (canonical_has_initial_map (isolate w) recv Hcanon)).
  apply IsUnmodifiedRegExp_true in Hcanon.
  destruct Hcanon as (_ & _ & _ & _ & (r & c & Hr & Hc & Hpos)).
  injection Hr as <-. exists c. now rewrite Hc.
Qed.

Lemma GetLastIndex_canonical_witness :
  exists c, 0 <= c /\
    GetLastIndex (rt := Reference.runtime) Reference.a_regexp
      Reference.the_world
    = (Just (Smi c), Reference.the_world).
Proof.
  exact (GetLastIndex_canonical (rt := Reference.runtime)
           Reference.a_regexp Reference.the_world eq_refl).
Defined.

(** ** The calls the dispatcher makes *)

(** X12. [RegExpExec] makes at most two calls, in this order: the read
    of "exec", made exactly when the supplied value is [undefined], and at
    most one call of a function, always with the matcher as receiver and
    the subject as the only argument. It never writes a property and
    never coerces. *)
Theorem RegExpExec_calls_shape {rt : Runtime} (regexp : address)
  (string : JSString) (exec : Object) (w : World) :
  exists reads invocations,
    calls (snd (RegExpExec regexp string exec w))
    = calls w ++ reads ++ invocations /\
    reads = (if IsUndefined exec
             then [EvGetProperty (JSReceiver regexp) exec_string]
             else []) /\
    (invocations = [] \/
     exists callable, invocations = [the_call regexp string callable]).
Proof.
  rewrite RegExpExec_steps. unfold bind, resolve_exec.
  destruct (IsUndefined exec).
  - exists [EvGetProperty (JSReceiver regexp) exec_string].
    assert (Hget : calls (snd (Object_GetProperty (JSReceiver regexp)
                                                  exec_string w))
                   = calls w ++ [EvGetProperty (JSReceiver regexp)
                                               exec_string])
      by apply external_calls.
    destruct (Object_GetProperty (JSReceiver regexp) exec_string w)
      as [[f | e] w1]; cbn [snd] in *.
    + destruct (exec_dispatch_calls regexp string f w1) as [Hc | [c Hc]];
        rewrite Hc, Hget.
      * exists []. rewrite app_nil_r. auto.
      * exists [the_call regexp string c]. rewrite <- app_assoc. eauto.
    + exists []. rewrite app_nil_r. auto.
  - exists []. unfold ret. cbn [app].
    destruct (exec_dispatch_calls regexp string exec w) as [Hc | [c Hc]];
      rewrite Hc.
    + exists []. rewrite app_nil_r. auto.
    + exists [the_call regexp string c]. eauto.
Qed.

(** X13. A supplied exec value that is neither [undefined] nor callable
    is ignored: any two such values give the same run. *)
Theorem RegExpExec_ignores_non_callable {rt : Runtime} (regexp : address)
  (string : JSString) (exec exec' : Object) (w : World) :
  IsUndefined exec = false -> IsCallable (isolate w) exec = false ->
  IsUndefined exec' = false -> IsCallable (isolate w) exec' = false ->
  RegExpExec regexp string exec w = RegExpExec regexp string exec' w.
Proof.
  intros Hu Hc Hu' Hc'.
  rewrite (RegExpExec_resolved regexp string exec exec w w)
    by (unfold resolve_exec; now rewrite Hu).
  rewrite (RegExpExec_resolved regexp string exec' exec' w w)
    by (unfold resolve_exec; now rewrite Hu').
  unfold exec_dispatch, bind, get_isolate. now rewrite Hc, Hc'.
Qed.

Lemma RegExpExec_ignores_non_callable_witness :
  RegExpExec (rt := Reference.runtime) Reference.a_patched_regexp
    Reference.ten_units (Smi 42) Reference.the_world
  = RegExpExec (rt := Reference.runtime) Reference.a_patched_regexp
      Reference.ten_units
      (JSReceiver Reference.a_plain_object) Reference.the_world.
Proof.
  exact (RegExpExec_ignores_non_callable (rt := Reference.runtime)
           Reference.a_patched_regexp Reference.ten_units (Smi 42)
           (JSReceiver Reference.a_plain_object) Reference.the_world
           eq_refl eq_refl eq_refl eq_refl).
Defined.

(** The initial map of the regexp function describes regexps. *)
Definition initial_map_is_regexp (isolate : Isolate) : Prop :=
  instance_type (map_at isolate (initial_map (regexp_function isolate)))
  = JS_REGEXP_TYPE.

Lemma initial_map_IsJSRegExp (isolate : Isolate) (recv : address) :
  initial_map_is_regexp isolate ->
  HasInitialRegExpMap isolate recv = true ->
  IsJSRegExp isolate (JSReceiver recv) = true.
Proof.
  unfold initial_map_is_regexp, HasInitialRegExpMap, IsJSRegExp.
  intros Hinv Hmap. apply N.eqb_eq in Hmap. rewrite Hmap.
  now apply bool_decide_eq_true_2.
Qed.

(** X14. On an isolate whose initial regexp map describes regexps, a
    matcher that has the initial map once the exec value is resolved (so
    every canonical matcher) never gets the incompatible-receiver error:
    with an exec value that is not callable the dispatcher calls the
    built-in exec function. *)
Theorem RegExpExec_initial_map_default {rt : Runtime} (regexp : address)
  (string : JSString) (exec exec' : Object) (w w1 : World) :
  resolve_exec regexp exec w = (Just exec', w1) ->
  IsCallable (isolate w1) exec' = false ->
  initial_map_is_regexp (isolate w1) ->
  HasInitialRegExpMap (isolate w1) regexp = true ->
  RegExpExec regexp string exec w
  = Execution_Call (regexp_exec_function (isolate w1)) (JSReceiver regexp)
                   [StringValue string] w1.
Proof.
  intros Hres Hcall Hinv Hmap.
  rewrite (RegExpExec_resolved regexp string exec exec' w w1 Hres).
  unfold exec_dispatch, bind, get_isolate. rewrite Hcall.
  now rewrite (initial_map_IsJSRegExp (isolate w1) regexp Hinv Hmap).
Qed.

Lemma RegExpExec_initial_map_default_witness :
  RegExpExec (rt := Reference.runtime) Reference.a_regexp
    Reference.ten_units (Smi 42) Reference.the_world
  = (Just null_value,
     {| isolate := Reference.the_isolate;
        calls := [EvCall (JSReceiver Reference.builtin_exec)
                         (JSReceiver Reference.a_regexp)
                         [StringValue Reference.ten_units]] |}).
Proof.
  rewrite (RegExpExec_initial_map_default (rt := Reference.runtime)
             Reference.a_regexp Reference.ten_units (Smi 42) (Smi 42)
             Reference.the_world Reference.the_world
             eq_refl eq_refl eq_refl eq_refl).
  reflexivity.
Defined.

(** ** Advance and rewrite: progress and calls *)

(** X15. When the cursor is read and coerced without an exception, to a
    value [k] in the safe-integer range, [SetAdvancedStringIndex] hands
    [SetLastIndex] an index greater than [k] and at most [k + 2]; on a
    matcher that has the initial map at that point the write cannot
    fail, returns the matcher and stores the number of that index. *)
Theorem SetAdvancedStringIndex_progress {rt : Runtime} (regexp : address)
  (string : JSString) (unicode : bool) (w w1 w2 : World) (v n : Object) :
  Object_GetProperty (JSReceiver regexp) lastIndex_string w = (Just v, w1) ->
  Object_ToLength v w1 = (Just n, w2) ->
  0 <= PositiveNumberToUint64 n <= Int.kMaxSafeInteger ->
  Str.length string <= Int.kMaxInt ->
  exists new_index,
    PositiveNumberToUint64 n < new_index <= PositiveNumberToUint64 n + 2 /\
    SetAdvancedStringIndex regexp string unicode w
    = SetLastIndex regexp new_index w2 /\
    (HasInitialRegExpMap (isolate w2) regexp = true ->
     SetAdvancedStringIndex regexp string unicode w
     = (Just (JSReceiver regexp),
        {| isolate :=
             JSRegExp_set_last_index (isolate w2) regexp
               (NewNumberFromInt64 new_index);
           calls := calls w2 |})).
Proof.
  intros Hget Hlen Hk Hs.
  set (k := PositiveNumberToUint64 n) in *.
  assert (Hk64 : Int.to_uint64 k = k).
  { apply Int.to_uint64_id. unfold Int.kMaxSafeInteger in Hk. lia. }
  assert (Hrun : SetAdvancedStringIndex regexp string unicode w
                 = SetLastIndex regexp (AdvanceStringIndex string k unicode)
                                w2).
  { rewrite SetAdvancedStringIndex_steps, Hget, Hlen.
    unfold advanced. fold k. now rewrite Hk64. }
  exists (AdvanceStringIndex string k unicode).
  assert (Hnew : k < AdvanceStringIndex string k unicode <= k + 2).
  { destruct unicode.
    - destruct (AdvanceStringIndex_unicode string k Hk Hs)
        as [[_ He] | [_ He]]; rewrite He; lia.
    - rewrite (AdvanceStringIndex_not_unicode string k Hk). lia. }
  split; [exact Hnew |]. split; [exact Hrun |].
  intros Hmap. rewrite Hrun, (SetLastIndex_direct _ _ _ Hmap).
  unfold written. rewrite Int.to_int64_id; [reflexivity |].
  unfold Int.kMaxSafeInteger in Hk. lia.
Qed.

Lemma SetAdvancedStringIndex_progress_witness :
  exists new_index,
    4 < new_index <= 6 /\
    SetAdvancedStringIndex (rt := Reference.runtime)
      Reference.a_custom_matcher Reference.ten_units true Reference.the_world
    = SetLastIndex (rt := Reference.runtime)
        Reference.a_custom_matcher new_index
        {| isolate := Reference.the_isolate;
           calls := [EvGetProperty (JSReceiver Reference.a_custom_matcher)
                                   lastIndex_string;
                     EvToLength (Smi 4)] |}.
Proof.
  destruct (SetAdvancedStringIndex_progress (rt := Reference.runtime)
              Reference.a_custom_matcher Reference.ten_units true
              Reference.the_world
              {| isolate := Reference.the_isolate;
                 calls := [EvGetProperty
                             (JSReceiver Reference.a_custom_matcher)
                             lastIndex_string] |}
              {| isolate := Reference.the_isolate;
                 calls := [EvGetProperty
                             (JSReceiver Reference.a_custom_matcher)
                             lastIndex_string;
                           EvToLength (Smi 4)] |}
              (Smi 4) (Smi 4) eq_refl eq_refl)
    as (new_index & Hnew & Hrun & _).
  - split; vm_compute; discriminate.
  - vm_compute. discriminate.
  - exists new_index. split; [exact Hnew | exact Hrun].
Defined.

